(** * Leaderboard-Sorter: the ranking engine and its countback comparator

    A shallow embedding of [src/utils/tiebreakers.ts] and
    [src/services/LeaderboardSorter.ts], with the cell parsing and the
    merging of the two tables from [src/services/ExcelReader.ts] and the
    check [main] of [src/app.ts] makes before it calls the sorter.

    - A JavaScript [number] is a [Z]: the sorter only orders numbers, tests
      them for equality and looks at the sign of a difference, and on finite
      numbers these agree with the integers' (scores and spending are
      rounded to hundredths by the reader, so think of a [Z] as a count of
      hundredths). Adding is another matter: the reader's totals are
      floating-point sums, which are rounded, depend on the order of the
      terms and need not be whole hundredths. Its addition is therefore a
      parameter, like the reading of a cell, and a total is an integer only
      in that totals are ordered and compared as integers are.
    - A [Player] object lives in a store and arrays hold references: the
      sorter writes [rank] and [isTied] through the references it was given,
      and the tie groups alias the same objects.
    - [Array.prototype.sort] is a stable sort: with a consistent comparator
      its result is the stable sorted arrangement, which insertion from the
      right computes.
    - [String.prototype.localeCompare] belongs to the platform: the sorter is
      parameterised by it. *)

From stdpp Require Import gmap strings.
From Stdlib Require Import ZArith List Lia Sorting Permutation.
Import ListNotations.
Local Open Scope Z_scope.
#[local] Set Warnings "-clear-no-such-hyp".

(** ** JavaScript arrays *)

Section JsArray.
Context {A : Type}.
Variable cmp : A -> A -> Z.

(** [x] goes in front of the first element it does not rank after, so
    elements that compare equal keep their order. *)
Fixpoint sort_insert (x : A) (l : list A) : list A :=
  match l with
  | [] => [x]
  | y :: l' => if cmp x y <=? 0 then x :: l else y :: sort_insert x l'
  end.

Definition js_sort (l : list A) : list A := fold_right sort_insert [] l.
End JsArray.

(** [arr[i] || 0] on an array of numbers: [undefined] (out of range) and [0]
    both give [0]. *)
Definition index_or0 (arr : list Z) (i : nat) : Z :=
  match nth_error arr i with
  | Some v => if v =? 0 then 0 else v
  | None => 0
  end.

(** [x || 0] for [x] a number or [undefined]. *)
Definition or0 (x : option Z) : Z :=
  match x with
  | Some v => if v =? 0 then 0 else v
  | None => 0
  end.

(** ** [src/types/index.ts] *)

Record Player := mkPlayer {
  name : string;
  eventScores : list Z;
  eventSpending : list Z;
  totalPoints : Z;
  totalSpending : Z;
  rank : option Z;
  isTied : option bool
}.

(** ** [src/utils/tiebreakers.ts] *)

(** [eventScores.filter(s => s > 0).sort((a, b) => b - a)] *)
Definition profile (scores : list Z) : list Z :=
  js_sort (fun a b => b - a) (filter (fun s => s >? 0) scores).

(** [scores.filter(s => s === v).length] *)
Definition occurrences (v : Z) (scores : list Z) : Z :=
  Z.of_nat (length (filter (fun s => s =? v) scores)).

(** The [for] loop of [countbackCompare], with [steps = maxLength - i]
    iterations left. *)
Fixpoint countback_loop (p1Scores p2Scores : list Z) (steps i : nat) : Z :=
  match steps with
  | O => 0
  | S steps' =>
      let score1 := index_or0 p1Scores i in
      let score2 := index_or0 p2Scores i in
      if score1 >? score2 then -1
      else if score2 >? score1 then 1
      else if (score1 =? score2) && (score1 >? 0) then
        let count1 := occurrences score1 p1Scores in
        let count2 := occurrences score2 p2Scores in
        if count1 >? count2 then -1
        else if count2 >? count1 then 1
        else countback_loop p1Scores p2Scores steps' (S i)
      else countback_loop p1Scores p2Scores steps' (S i)
  end.

Definition countbackCompare (p1 p2 : Player) : Z :=
  let p1Scores := profile (eventScores p1) in
  let p2Scores := profile (eventScores p2) in
  let maxLength := Nat.max (length p1Scores) (length p2Scores) in
  countback_loop p1Scores p2Scores maxLength 0.

(** A [Map<number, number>] keeps its keys in insertion order: an association
    list in which [set] overwrites in place or appends. *)
Definition NumMap := list (Z * Z).

Fixpoint map_get (k : Z) (m : NumMap) : option Z :=
  match m with
  | [] => None
  | (k', v) :: m' => if k' =? k then Some v else map_get k m'
  end.

Fixpoint map_set (k v : Z) (m : NumMap) : NumMap :=
  match m with
  | [] => [(k, v)]
  | (k', v') :: m' =>
      if k' =? k then (k', v) :: m' else (k', v') :: map_set k v m'
  end.

(** The body of the [for (const score of player.eventScores)] loop. *)
Definition count_score (frequency : NumMap) (score : Z) : NumMap :=
  if score >? 0
  then map_set score (or0 (map_get score frequency) + 1) frequency
  else frequency.

Definition getScoreFrequency (player : Player) : NumMap :=
  fold_left count_score (eventScores player) [].

(** The comparator both [sort] calls of [detailedCountback] use. *)
Definition entry_compare (a b : Z * Z) : Z :=
  if negb (fst b =? fst a) then fst b - fst a else snd b - snd a.

(** [freq[i] || [0, 0]] *)
Definition entry_or00 (freq : list (Z * Z)) (i : nat) : Z * Z :=
  match nth_error freq i with
  | Some e => e
  | None => (0, 0)
  end.

Fixpoint detailed_loop (freq1 freq2 : list (Z * Z)) (steps i : nat) : Z :=
  match steps with
  | O => 0
  | S steps' =>
      let '(score1, count1) := entry_or00 freq1 i in
      let '(score2, count2) := entry_or00 freq2 i in
      if score1 >? score2 then -1
      else if score2 >? score1 then 1
      else if count1 >? count2 then -1
      else if count2 >? count1 then 1
      else detailed_loop freq1 freq2 steps' (S i)
  end.

Definition detailedCountback (p1 p2 : Player) : Z :=
  let freq1 := js_sort entry_compare (getScoreFrequency p1) in
  let freq2 := js_sort entry_compare (getScoreFrequency p2) in
  let maxLength := Nat.max (length freq1) (length freq2) in
  detailed_loop freq1 freq2 maxLength 0.

Definition arePlayersTied (p1 p2 : Player) : bool :=
  if negb (totalPoints p1 =? totalPoints p2) then false
  else if negb (totalSpending p1 =? totalSpending p2) then false
  else if negb (countbackCompare p1 p2 =? 0) then false
  else true.

(** ** The object store *)

Definition ref := nat.
Definition store := ref -> Player.

Definition with_rank (p : Player) (r : Z) : Player :=
  mkPlayer (name p) (eventScores p) (eventSpending p)
           (totalPoints p) (totalSpending p) (Some r) (isTied p).

Definition with_isTied (p : Player) (b : bool) : Player :=
  mkPlayer (name p) (eventScores p) (eventSpending p)
           (totalPoints p) (totalSpending p) (rank p) (Some b).

(** [player.rank = r] *)
Definition set_rank (h : store) (player : ref) (r : Z) : store :=
  fun o => if Nat.eqb o player then with_rank (h o) r else h o.

(** [player.isTied = b] *)
Definition set_isTied (h : store) (player : ref) (b : bool) : store :=
  fun o => if Nat.eqb o player then with_isTied (h o) b else h o.

(** ** [findTieGroups] *)

Section TieGroups.
Variable h : store.
Variable players : list ref.

(** The inner [for (let j = i + 1; ...)] loop: [steps] iterations left. *)
Fixpoint tie_inner (player : ref) (steps j : nat)
         (group : list ref) (processed : gset string)
  : list ref * gset string :=
  match steps with
  | O => (group, processed)
  | S steps' =>
      match nth_error players j with
      | None => tie_inner player steps' (S j) group processed
      | Some otherPlayer =>
          if bool_decide (name (h otherPlayer) ∈ processed)
          then tie_inner player steps' (S j) group processed
          else if arePlayersTied (h player) (h otherPlayer)
          then tie_inner player steps' (S j) (group ++ [otherPlayer])
                         ({[name (h otherPlayer)]} ∪ processed)
          else tie_inner player steps' (S j) group processed
      end
  end.

(** The outer [for (let i = 0; ...)] loop. *)
Fixpoint tie_outer (steps i : nat)
         (tieGroups : list (list ref)) (processed : gset string)
  : list (list ref) :=
  match steps with
  | O => tieGroups
  | S steps' =>
      match nth_error players i with
      | None => tie_outer steps' (S i) tieGroups processed
      | Some player =>
          if bool_decide (name (h player) ∈ processed)
          then tie_outer steps' (S i) tieGroups processed
          else
            let '(group, processed') :=
              tie_inner player steps' (S i) [player]
                        ({[name (h player)]} ∪ processed) in
            if (1 <? length group)%nat
            then tie_outer steps' (S i) (tieGroups ++ [group]) processed'
            else tie_outer steps' (S i) tieGroups processed'
      end
  end.

Definition findTieGroups : list (list ref) :=
  tie_outer (length players) 0%nat [] ∅.
End TieGroups.

(** ** [src/services/LeaderboardSorter.ts] *)

Section LeaderboardSorter.
Variable localeCompare : string -> string -> Z.

(** The comparator handed to [sort] in [sortPlayers]. *)
Definition comparePlayers (a b : Player) : Z :=
  if negb (totalPoints a =? totalPoints b)
  then totalPoints b - totalPoints a
  else if negb (totalSpending a =? totalSpending b)
  then totalSpending a - totalSpending b
  else
    let countbackResult := countbackCompare a b in
    if negb (countbackResult =? 0) then countbackResult
    else localeCompare (name a) (name b).

(** The test [assignRanks] makes between a player and the next one. *)
Definition rank_advances (current next : Player) : bool :=
  if negb (totalPoints current =? totalPoints next) then true
  else negb (totalSpending current =? totalSpending next)
       || negb (countbackCompare current next =? 0).

Fixpoint assignRanks_loop (players : list ref) (steps i : nat)
         (currentRank : Z) (h : store) : store :=
  match steps with
  | O => h
  | S steps' =>
      match nth_error players i with
      | None => assignRanks_loop players steps' (S i) currentRank h
      | Some player =>
          let h := set_rank h player currentRank in
          if (i <? length players - 1)%nat then
            match nth_error players i, nth_error players (i + 1) with
            | Some current, Some next =>
                if rank_advances (h current) (h next)
                then assignRanks_loop players steps' (S i)
                                      (Z.of_nat i + 2) h
                else assignRanks_loop players steps' (S i) currentRank h
            | _, _ => assignRanks_loop players steps' (S i) currentRank h
            end
          else assignRanks_loop players steps' (S i) currentRank h
      end
  end.

Definition assignRanks (players : list ref) (h : store) : store :=
  assignRanks_loop players (length players) 0%nat 1 h.

(** [for (const player of group) player.isTied = true]; the
    [group.sort(...)] that follows reorders the group array only. *)
Definition mark_group (h : store) (group : list ref) : store :=
  fold_left (fun h player => set_isTied h player true) group h.

Definition markTiedPlayers (players : list ref) (h : store) : store :=
  let tieGroups := findTieGroups h players in
  fold_left mark_group tieGroups h.

Definition sortPlayers (players : list ref) (h : store)
  : list ref * store :=
  let sorted :=
    js_sort (fun a b => comparePlayers (h a) (h b)) players in
  let h := assignRanks sorted h in
  let h := markTiedPlayers sorted h in
  (sorted, h).
End LeaderboardSorter.

(** ** A concrete name ordering, for running the sorter *)

Definition codepointCompare (s t : string) : Z :=
  match String.compare s t with
  | Lt => -1
  | Eq => 0
  | Gt => 1
  end.

(** A record for the examples, as [ExcelReader.mergeTables] builds one from
    whole-number cells (which add without rounding): the totals are the sums
    of the event lists, [rank] and [isTied] are absent. *)
Definition newPlayer (n : string) (scores spending : list Z) : Player :=
  mkPlayer n scores spending
           (fold_left Z.add scores 0) (fold_left Z.add spending 0)
           None None.

(** A store holding the given records at references [0], [1], ... *)
Definition store_of (ps : list Player) : store :=
  fun o => nth o ps (newPlayer "" [] []).




(** ** [LeaderboardSorter.getStats] *)

From Stdlib Require Import QArith_base.
Local Open Scope Z_scope.

(** The numbers [getStats] can return: besides finite values, [Math.max] and
    [Math.min] of nothing are infinite and [0 / 0] is [NaN]. The mean is kept
    as the exact quotient, which JavaScript rounds to the nearest double. *)
Inductive jsnumber :=
| Finite (q : Q)
| PosInfinity
| NegInfinity
| NaN.

(** [Math.max(...scores)] *)
Definition math_max (scores : list Z) : jsnumber :=
  match scores with
  | [] => NegInfinity
  | s :: rest => Finite (inject_Z (fold_left Z.max rest s))
  end.

(** [Math.min(...scores)] *)
Definition math_min (scores : list Z) : jsnumber :=
  match scores with
  | [] => PosInfinity
  | s :: rest => Finite (inject_Z (fold_left Z.min rest s))
  end.

(** [sum / count] for a finite [sum] and an array length [count]. *)
Definition js_divide (sum count : Z) : jsnumber :=
  if count =? 0 then
    if sum =? 0 then NaN
    else if 0 <? sum then PosInfinity else NegInfinity
  else Finite (Qmake sum (Z.to_pos count)).

(** [p.isTied] read as a condition: absent and [false] both fail. *)
Definition truthy (flag : option bool) : bool :=
  match flag with
  | Some true => true
  | _ => false
  end.

Record Stats := mkStats {
  totalPlayers : Z;
  highestScore : jsnumber;
  lowestScore : jsnumber;
  averageScore : jsnumber;
  tiedCount : Z
}.

Definition getStats (players : list ref) (h : store) : Stats :=
  let totalPlayers := Z.of_nat (length players) in
  let scores := map (fun p => totalPoints (h p)) players in
  let highestScore := math_max scores in
  let lowestScore := math_min scores in
  let averageScore :=
    js_divide (fold_left (fun sum s => sum + s) scores 0) totalPlayers in
  let tiedCount :=
    Z.of_nat (length (filter (fun p => truthy (isTied (h p))) players)) in
  mkStats totalPlayers highestScore lowestScore averageScore tiedCount.

(** ** [src/services/ExcelReader.ts]: from raw rows to players *)

Module Raw.
Record RawPlayerData := mk {
  name : string;
  scores : list string;
  spending : list string
}.
End Raw.

(** [value.includes(pattern)] *)
Fixpoint includes (pattern value : string) : bool :=
  if String.prefix pattern value then true
  else match value with
       | EmptyString => false
       | String _ value' => includes pattern value'
       end.

(** The characters [$] and [,]. *)
Definition is_dollar_or_comma (c : Ascii.ascii) : bool :=
  (Ascii.eqb c (Ascii.ascii_of_nat 36)
   || Ascii.eqb c (Ascii.ascii_of_nat 44))%bool.

(** [value.replace(/[$,]/g, '')] *)
Fixpoint remove_dollar_comma (value : string) : string :=
  match value with
  | EmptyString => EmptyString
  | String c value' =>
      if is_dollar_or_comma c
      then remove_dollar_comma value'
      else String c (remove_dollar_comma value')
  end.

Section ExcelReader.
(** [s.toLowerCase()], the platform's. *)
Variable toLowerCase : string -> string.
(** [Math.round(parseFloat(value) * 100)], the value of a cell in
    hundredths; [None] when [parseFloat(value)] is [NaN]. *)
Variable roundedHundredths : string -> option Z.
(** [sum + score], the platform's addition of two numbers. It rounds: the
    sum of 0.1, 0.2 and 0.3 taken in this order is not the sum taken in the
    opposite order, and neither total is rounded afterwards. Nothing is
    assumed of it. *)
Variable js_add : Z -> Z -> Z.

Definition parseScore (value : string) : Z :=
  if (String.eqb value "" || String.eqb value "-"
      || includes "D$Q" value || includes "DSQ" value)%bool
  then 0
  else match roundedHundredths value with
       | None => 0
       | Some num => num
       end.

Definition parseSpending (value : string) : Z :=
  if (String.eqb value "" || String.eqb value "-")%bool then 0
  else
    let cleaned := remove_dollar_comma value in
    match roundedHundredths cleaned with
    | None => 0
    | Some num => num
    end.

(** The body of the [for (const pointsPlayer of pointsPlayers)] loop of
    [mergeTables]. *)
Definition merge_row (spendingPlayers : list Raw.RawPlayerData)
           (players : list Player) (pointsPlayer : Raw.RawPlayerData)
  : list Player :=
  match find (fun sp => String.eqb (toLowerCase (Raw.name sp))
                                   (toLowerCase (Raw.name pointsPlayer)))
             spendingPlayers with
  | None => players
  | Some spendingPlayer =>
      let eventScores := map parseScore (Raw.scores pointsPlayer) in
      let eventSpending := map parseSpending (Raw.spending spendingPlayer) in
      let totalPoints :=
        fold_left (fun sum score => js_add sum score) eventScores 0 in
      let totalSpending :=
        fold_left (fun sum spending => js_add sum spending)
                  eventSpending 0 in
      players ++ [mkPlayer (Raw.name pointsPlayer) eventScores eventSpending
                           totalPoints totalSpending None None]
  end.

Definition mergeTables (pointsPlayers spendingPlayers : list Raw.RawPlayerData)
  : list Player :=
  fold_left (merge_row spendingPlayers) pointsPlayers [].
End ExcelReader.

(** * Notions the statements use *)

(** [a] may stand in front of [b] under the comparator [cmp]. *)
Definition in_order {A : Type} (cmp : A -> A -> Z) (a b : A) : Prop :=
  cmp a b <= 0.

(** A performance profile: positive scores, best first. *)
Definition descending (p : list Z) : Prop :=
  StronglySorted Z.ge p /\ Forall (fun s => 0 < s) p.

(** Position-by-position comparison of two profiles, a missing position
    losing against a present one. *)
Fixpoint lexcmp (p q : list Z) : Z :=
  match p, q with
  | [], [] => 0
  | _ :: _, [] => -1
  | [], _ :: _ => 1
  | x :: p', y :: q' =>
      if x >? y then -1 else if y >? x then 1 else lexcmp p' q'
  end.

(** The player [p] with [n] zero scores appended to its [eventScores]. *)
Definition append_zeros (p : Player) (n : nat) : Player :=
  mkPlayer (name p) (eventScores p ++ repeat 0 n) (eventSpending p)
           (totalPoints p) (totalSpending p) (rank p) (isTied p).

(** The strictly positive entries of a score list, in their order. *)
Definition positive_scores (scores : list Z) : list Z :=
  filter (fun s => s >? 0) scores.

(** The profile a list of (score, count) entries stands for. *)
Definition expand (freq : list (Z * Z)) : list Z :=
  flat_map (fun e => repeat (fst e) (Z.to_nat (snd e))) freq.

(** Entries of a frequency map: positive scores, each counted at least
    once. *)
Definition entries_ok (freq : list (Z * Z)) : Prop :=
  Forall (fun e => 0 < fst e /\ 1 <= snd e) freq.

(** A run encoding: entries by strictly decreasing score. *)
Definition run_encoding (freq : list (Z * Z)) : Prop :=
  StronglySorted (fun a b => fst b < fst a) freq /\ entries_ok freq.

(** The order [sortPlayers] aims at, level by level: [x] may stand
    immediately in front of [y]. *)
Definition ranked_before (localeCompare : string -> string -> Z)
           (x y : Player) : Prop :=
  totalPoints x > totalPoints y \/
  (totalPoints x = totalPoints y /\ totalSpending x < totalSpending y) \/
  (totalPoints x = totalPoints y /\ totalSpending x = totalSpending y /\
   countbackCompare x y < 0) \/
  (totalPoints x = totalPoints y /\ totalSpending x = totalSpending y /\
   countbackCompare x y = 0 /\ localeCompare (name x) (name y) <= 0).

(** [a] ranks above [b] under the comparator of [sortPlayers]. *)
Definition ranks_above (localeCompare : string -> string -> Z)
           (a b : Player) : Prop :=
  comparePlayers localeCompare a b < 0.

(** Two records carry the same input data: everything but [rank] and
    [isTied]. *)
Definition same_data (p q : Player) : Prop :=
  name p = name q /\ eventScores p = eventScores q /\
  eventSpending p = eventSpending q /\
  totalPoints p = totalPoints q /\ totalSpending p = totalSpending q.

(** The loops of [findTieGroups], by recursion on the part of [players] still
    to visit; [nm] reads a player's name and [tied] is [arePlayersTied]. *)
Section Grouping.
Variable nm : ref -> string.
Variable tied : ref -> ref -> bool.

Fixpoint collect (player : ref) (rest : list ref)
         (group : list ref) (processed : gset string)
  : list ref * gset string :=
  match rest with
  | [] => (group, processed)
  | other :: rest' =>
      if bool_decide (nm other ∈ processed)
      then collect player rest' group processed
      else if tied player other
      then collect player rest' (group ++ [other])
                   ({[nm other]} ∪ processed)
      else collect player rest' group processed
  end.

Fixpoint groups_from (rest : list ref)
         (tieGroups : list (list ref)) (processed : gset string)
  : list (list ref) :=
  match rest with
  | [] => tieGroups
  | player :: rest' =>
      if bool_decide (nm player ∈ processed)
      then groups_from rest' tieGroups processed
      else
        let '(group, processed') :=
          collect player rest' [player] ({[nm player]} ∪ processed) in
        if (1 <? length group)%nat
        then groups_from rest' (tieGroups ++ [group]) processed'
        else groups_from rest' tieGroups processed'
  end.
End Grouping.

(** The ranks [assignRanks] writes from position [i] on, by recursion on the
    part of [players] still to visit. *)
Fixpoint ranks_from (rest : list ref) (i : nat) (currentRank : Z)
         (h : store) : store :=
  match rest with
  | [] => h
  | player :: rest' =>
      let h := set_rank h player currentRank in
      match rest' with
      | [] => h
      | next :: _ =>
          if rank_advances (h player) (h next)
          then ranks_from rest' (S i) (Z.of_nat i + 2) h
          else ranks_from rest' (S i) currentRank h
      end
  end.

(** A set of processed names never separates two tied players of [rest]. *)
Definition names_closed (nm : ref -> string) (tied : ref -> ref -> bool)
           (rest : list ref) (processed : gset string) : Prop :=
  forall x y, In x rest -> In y rest -> tied x y = true ->
              nm x ∈ processed -> nm y ∈ processed.

(** [x] and [y] differ on one of the first three ordering levels. *)
Definition differs (x y : Player) : Prop :=
  totalPoints x <> totalPoints y \/ totalSpending x <> totalSpending y \/
  countbackCompare x y <> 0.

(** [a] beats [b] on the first three ordering levels; names play no part. *)
Definition outranks (a b : Player) : bool :=
  (totalPoints b <? totalPoints a)
  || ((totalPoints a =? totalPoints b)
      && ((totalSpending a <? totalSpending b)
          || ((totalSpending a =? totalSpending b)
              && (countbackCompare a b <? 0)))).

(** The comparator of [sortPlayers] with the name level switched off. *)
Definition compare_levels (a b : Player) : Z :=
  comparePlayers (fun _ _ => 0) a b.

(** How many players of [l] beat [x] on the first three levels. *)
Definition better_count (h : store) (l : list ref) (x : ref) : Z :=
  Z.of_nat (length (filter (fun y => outranks (h y) (h x)) l)).


(** The players of the input fully tied with [x], [x] included. *)
Definition tie_class (h : store) (players : list ref) (x : ref) : list ref :=
  filter (fun y => arePlayersTied (h x) (h y)) players.

(** [group] is one whole tie class of [players] with at least two members:
    its members are players, tied with each other, and every player tied
    with a member is a member. *)
Definition whole_tie_class (tied : ref -> ref -> bool)
           (players group : list ref) : Prop :=
  (2 <= length group)%nat /\
  (forall x, In x group -> In x players) /\
  (forall x y, In x group -> In y group -> tied x y = true) /\
  (forall x y, In x group -> In y players -> tied x y = true -> In y group).

(** ** A small leaderboard to run the sorter on

    Five players over five events: C has the most points; D, E, A and B
    have 65 points each, D with less spending than the others; E beats A and
    B on countback; A and B have the same scores in a different order. *)
Definition demo_store : store :=
  store_of
    [ newPlayer "B" [15; 10; 20; 8; 12] [100; 0; 0; 0; 0];
      newPlayer "A" [10; 15; 8; 20; 12] [0; 100; 0; 0; 0];
      newPlayer "E" [50; 0; 0; 15; 0] [100; 0; 0; 0; 0];
      newPlayer "D" [13; 13; 13; 13; 13] [50; 0; 0; 0; 0];
      newPlayer "C" [20; 20; 20; 10; 0] [0; 0; 0; 0; 0] ].

Definition demo_players : list ref := [0; 1; 2; 3; 4]%nat.

(** ** A stand-in for [localeCompare] that knows canonical equivalence

    ECMA-262 has [localeCompare] return 0 on strings that Unicode holds to
    be canonically equivalent. The letter e with an acute accent is one
    code point (bytes 195 169 in UTF-8) or an e followed by the combining
    accent (bytes 101 204 129): two strings, one name. *)
Definition e_acute : string :=
  String (Ascii.ascii_of_nat 195) (String (Ascii.ascii_of_nat 169) "").

Definition e_combining_acute : string :=
  String (Ascii.ascii_of_nat 101)
         (String (Ascii.ascii_of_nat 204)
                 (String (Ascii.ascii_of_nat 129) "")).

(** Every [e_acute] of [s] written as letter and accent. *)
Fixpoint decompose (s : string) : string :=
  match s with
  | EmptyString => EmptyString
  | String c s' =>
      match s' with
      | EmptyString => String c EmptyString
      | String d s'' =>
          if (Ascii.eqb c (Ascii.ascii_of_nat 195)
              && Ascii.eqb d (Ascii.ascii_of_nat 169))%bool
          then (e_combining_acute ++ decompose s'')%string
          else String c (decompose s')
      end
  end.

(** Names compared by code point once both are decomposed. *)
Definition canonicalCompare (s t : string) : Z :=
  codepointCompare (decompose s) (decompose t).

(** One competitor entered twice, under the two spellings of the name, with
    the same scores in a different order. *)
Definition jose_precomposed : Player :=
  newPlayer ("Jos" ++ e_acute) [10; 5] [3; 0].
Definition jose_decomposed : Player :=
  newPlayer ("Jos" ++ e_combining_acute) [5; 10] [0; 3].



(** Two players with the same totals whose scores differ only in their
    negative entries. *)
Definition penalised_a : Player := newPlayer "a" [10; -2; -2] [0; 0; 0].
Definition penalised_b : Player := newPlayer "b" [10; -1; -3] [0; 0; 0].

(** A tie group as the loops of [findTieGroups] build it: a first player and
    at least one more, each tied with the first. *)
Definition led_group (tied : ref -> ref -> bool) (group : list ref) : Prop :=
  exists leader members,
    group = leader :: members /\ members <> [] /\
    forall x, In x members -> tied leader x = true.

(** ** Stand-ins for the platform's cell reading, to run the reader on *)

(** The value of a string of decimal digits. *)
Fixpoint digits_value (s : string) (acc : Z) : option Z :=
  match s with
  | EmptyString => Some acc
  | String c s' =>
      let n := Z.of_nat (Ascii.nat_of_ascii c) in
      if (48 <=? n) && (n <=? 57)
      then digits_value s' (10 * acc + (n - 48))
      else None
  end.

(** A reading of cells that hold a whole number: its value in hundredths;
    nothing else is a number. *)
Definition whole_hundredths (s : string) : option Z :=
  match s with
  | EmptyString => None
  | _ => option_map (fun v => 100 * v) (digits_value s 0)
  end.

(** Lower case for the letters A to Z. *)
Fixpoint ascii_lower (s : string) : string :=
  match s with
  | EmptyString => EmptyString
  | String c s' =>
      let n := Ascii.nat_of_ascii c in
      String (if (65 <=? n)%nat && (n <=? 90)%nat
              then Ascii.ascii_of_nat (n + 32) else c)
             (ascii_lower s')
  end.

(** Two sheets: Bo has no spending row, and Al's is spelled in capitals. *)
Definition demo_points : list Raw.RawPlayerData :=
  [ Raw.mk "Al" ["10"; "DSQ"; "5"] [];
    Raw.mk "Bo" ["7"; "7"; "1"] [];
    Raw.mk "Cy" ["-"; "5"; "10"] [] ].

Definition demo_spending : list Raw.RawPlayerData :=
  [ Raw.mk "CY" [] ["$1,200"; "0"; "-"];
    Raw.mk "AL" [] ["1200"; "$0"; ""] ].

(** Whole numbers add without rounding, so on these sheets [Z.add] on
    hundredths is the platform's addition. *)
Definition demo_merged : list Player :=
  mergeTables ascii_lower whole_hundredths Z.add demo_points demo_spending.

(** A record handed in with its tie flag already set. *)
Definition stale_store : store :=
  store_of [ mkPlayer "S" [7; 0] [3; 4] 7 7 (Some 1) (Some true) ].

(** * Facts about [js_sort] *)

Section SortFacts.
Context {A : Type}.
Variable cmp : A -> A -> Z.

Lemma sort_insert_perm x l : Permutation (sort_insert cmp x l) (x :: l).
Proof.
  induction l as [|y l IH]; simpl; [reflexivity|].
  destruct (cmp x y <=? 0); [reflexivity|].
  rewrite IH. apply perm_swap.
Qed.

Lemma js_sort_perm l : Permutation (js_sort cmp l) l.
Proof.
  induction l as [|x l IH]; simpl; [reflexivity|].
  rewrite sort_insert_perm. now constructor.
Qed.

Lemma js_sort_In x l : In x (js_sort cmp l) <-> In x l.
Proof.
  split; apply Permutation_in; [|symmetry]; apply js_sort_perm.
Qed.

Hypothesis cmp_connex : forall a b, 0 < cmp a b -> cmp b a <= 0.

Lemma sort_insert_sorted x l :
  Sorted (in_order cmp) l -> Sorted (in_order cmp) (sort_insert cmp x l).
Proof.
  induction l as [|y l IH]; simpl; intros Hs.
  - repeat constructor.
  - destruct (cmp x y <=? 0) eqn:E.
    + constructor; [exact Hs|]. constructor. unfold in_order. lia.
    + inversion Hs as [|? ? Hl Hy]; subst.
      constructor; [auto|].
      assert (Hyx : in_order cmp y x) by (apply cmp_connex; lia).
      destruct l as [|z l]; simpl.
      * now constructor.
      * destruct (cmp x z <=? 0); constructor; auto.
        now inversion Hy.
Qed.

Lemma js_sort_sorted l : Sorted (in_order cmp) (js_sort cmp l).
Proof.
  induction l as [|x l IH]; simpl; [constructor|].
  now apply sort_insert_sorted.
Qed.

Hypothesis cmp_trans :
  forall a b c, cmp a b <= 0 -> cmp b c <= 0 -> cmp a c <= 0.

Lemma js_sort_strongly_sorted l : StronglySorted (in_order cmp) (js_sort cmp l).
Proof.
  apply Sorted_StronglySorted; [|apply js_sort_sorted].
  intros a b c. apply cmp_trans.
Qed.
End SortFacts.

(** * The countback comparator *)

Lemma descending_tail x p : descending (x :: p) -> descending p.
Proof.
  intros [Hs Hp]. inversion Hs; inversion Hp; subst. now split.
Qed.

Lemma descending_head x p : descending (x :: p) -> 0 < x.
Proof. intros [_ Hp]. now inversion Hp. Qed.

Lemma StronglySorted_weaken {A} (R S : A -> A -> Prop) l :
  (forall a b, R a b -> S a b) -> StronglySorted R l -> StronglySorted S l.
Proof.
  intros HRS. induction 1 as [|a l Hl IH Ha]; constructor; auto.
  eapply Forall_impl; [|exact Ha]. auto.
Qed.

Lemma profile_perm scores :
  Permutation (profile scores) (filter (fun s => s >? 0) scores).
Proof. apply js_sort_perm. Qed.

Lemma profile_descending scores : descending (profile scores).
Proof.
  split.
  - unfold profile.
    eapply StronglySorted_weaken;
      [|apply (js_sort_strongly_sorted (fun a b : Z => b - a)); intros; lia].
    unfold in_order. intros; lia.
  - apply Forall_forall. intros s Hs.
    apply (Permutation_in _ (profile_perm scores)) in Hs.
    apply filter_In in Hs. lia.
Qed.

(** Two profiles with the same entries are the same list. *)
Lemma descending_perm_eq p q :
  StronglySorted Z.ge p -> StronglySorted Z.ge q -> Permutation p q -> p = q.
Proof.
  revert q. induction p as [|x p IH]; intros q Hp Hq Hperm.
  - apply Permutation_nil in Hperm. now subst.
  - destruct q as [|y q].
    + symmetry in Hperm. now apply Permutation_nil in Hperm.
    + inversion Hp as [|? ? Hp' Hx]; inversion Hq as [|? ? Hq' Hy]; subst.
      rewrite Forall_forall in Hx, Hy.
      assert (x = y).
      { assert (Hin1 : In x (y :: q))
          by (eapply Permutation_in; [exact Hperm|now left]).
        assert (Hin2 : In y (x :: p))
          by (eapply Permutation_in; [symmetry; exact Hperm|now left]).
        destruct Hin1 as [->|Hin1]; [reflexivity|].
        destruct Hin2 as [->|Hin2]; [reflexivity|].
        specialize (Hx _ Hin2). specialize (Hy _ Hin1). lia. }
      subst y. f_equal. apply IH; auto.
      now apply Permutation_cons_inv in Hperm.
Qed.

Lemma lexcmp_refl p : lexcmp p p = 0.
Proof.
  induction p as [|x p IH]; simpl; [reflexivity|].
  destruct (x >? x) eqn:E; [lia|exact IH].
Qed.

Lemma lexcmp_antisym p q : lexcmp q p = - lexcmp p q.
Proof.
  revert q. induction p as [|x p IH]; intros [|y q]; simpl; try reflexivity.
  destruct (x >? y) eqn:E1, (y >? x) eqn:E2; try reflexivity; [lia|apply IH].
Qed.

Lemma lexcmp_eq p q : lexcmp p q = 0 -> p = q.
Proof.
  revert q. induction p as [|x p IH]; intros [|y q]; simpl;
    try reflexivity; try discriminate.
  destruct (x >? y) eqn:E1; [discriminate|].
  destruct (y >? x) eqn:E2; [discriminate|].
  intros H. f_equal; [lia|now apply IH].
Qed.

Lemma lexcmp_range p q :
  lexcmp p q = -1 \/ lexcmp p q = 0 \/ lexcmp p q = 1.
Proof.
  revert q. induction p as [|x p IH]; intros [|y q]; simpl; auto.
  destruct (x >? y); auto. destruct (y >? x); auto.
Qed.

Lemma lexcmp_trans p q r :
  lexcmp p q <= 0 -> lexcmp q r <= 0 -> lexcmp p r <= 0.
Proof.
  revert q r. induction p as [|x p IH]; intros [|y q] [|z r]; simpl;
    try lia.
  destruct (x >? y) eqn:E1, (y >? x) eqn:E2, (y >? z) eqn:E3,
           (z >? y) eqn:E4, (x >? z) eqn:E5, (z >? x) eqn:E6;
    try lia.
  apply IH.
Qed.

Lemma lexcmp_app pre p q : lexcmp (pre ++ p) (pre ++ q) = lexcmp p q.
Proof.
  induction pre as [|x pre IH]; simpl; [reflexivity|].
  destruct (x >? x) eqn:E; [lia|exact IH].
Qed.

Lemma occurrences_nonneg v l : 0 <= occurrences v l.
Proof. unfold occurrences. lia. Qed.

Lemma occurrences_cons v x l :
  occurrences v (x :: l) = (if x =? v then 1 else 0) + occurrences v l.
Proof.
  unfold occurrences. simpl. destruct (x =? v); simpl length; lia.
Qed.

Lemma occurrences_app v l1 l2 :
  occurrences v (l1 ++ l2) = occurrences v l1 + occurrences v l2.
Proof.
  unfold occurrences. rewrite filter_app, length_app. lia.
Qed.

Lemma occurrences_below v l :
  Forall (fun s => s < v) l -> occurrences v l = 0.
Proof.
  induction 1 as [|x l Hx _ IH]; [reflexivity|].
  rewrite occurrences_cons, IH. destruct (x =? v) eqn:E; lia.
Qed.

(** Among profiles bounded by [v], the one with more copies of [v] wins the
    position-by-position comparison. *)
Lemma more_occurrences_wins v p q :
  StronglySorted Z.ge p -> StronglySorted Z.ge q ->
  Forall (fun s => s <= v) p -> Forall (fun s => s <= v) q ->
  occurrences v q < occurrences v p -> lexcmp p q = -1.
Proof.
  revert q. induction p as [|x p IH]; intros q Hp Hq Bp Bq Hocc.
  - pose proof (occurrences_nonneg v q). unfold occurrences in Hocc at 2.
    simpl in Hocc. lia.
  - inversion Hp as [|? ? Hp' Hx]; inversion Bp as [|? ? Hxv Bp']; subst.
    assert (x = v) as ->.
    { destruct (Z.eq_dec x v) as [|Hne]; [assumption|exfalso].
      assert (Hz : occurrences v (x :: p) = 0).
      { apply occurrences_below. constructor; [lia|].
        eapply Forall_impl; [|exact Hx]. simpl. intros; lia. }
      pose proof (occurrences_nonneg v q). lia. }
    destruct q as [|y q]; [reflexivity|].
    inversion Hq as [|? ? Hq' Hy]; inversion Bq as [|? ? Hyv Bq']; subst.
    simpl. destruct (v >? y) eqn:E1; [reflexivity|].
    assert (y = v) as -> by lia.
    rewrite E1. rewrite !occurrences_cons, Z.eqb_refl in Hocc.
    apply IH; auto. lia.
Qed.

Lemma index_or0_app pre s :
  index_or0 (pre ++ s) (length pre) = index_or0 s 0.
Proof.
  unfold index_or0. rewrite nth_error_app2 by lia.
  now rewrite Nat.sub_diag.
Qed.

Lemma descending_bounded x p :
  descending (x :: p) -> Forall (fun s => s <= x) p.
Proof.
  intros [Hs _]. inversion Hs as [|? ? _ Hx]; subst.
  eapply Forall_impl; [|exact Hx]. simpl. intros; lia.
Qed.

(** The loop of [countbackCompare], started at any position of two profiles
    that agree before it, is the position-by-position comparison of what is
    left. *)
Lemma countback_loop_lexcmp s1 : forall s2 pre,
  descending s1 -> descending s2 ->
  countback_loop (pre ++ s1) (pre ++ s2)
                 (Nat.max (length s1) (length s2)) (length pre)
  = lexcmp s1 s2.
Proof.
  induction s1 as [|x t1 IH]; intros [|y t2] pre D1 D2.
  - reflexivity.
  - pose proof (descending_head _ _ D2) as Hy.
    cbn [length Nat.max countback_loop lexcmp].
    rewrite !index_or0_app. unfold index_or0. cbn [nth_error].
    destruct (y =? 0) eqn:E0; [lia|].
    destruct (0 >? y) eqn:E1; [lia|].
    destruct (y >? 0) eqn:E2; [reflexivity|lia].
  - pose proof (descending_head _ _ D1) as Hx.
    cbn [length Nat.max countback_loop lexcmp].
    rewrite !index_or0_app. unfold index_or0. cbn [nth_error].
    destruct (x =? 0) eqn:E0; [lia|].
    destruct (x >? 0) eqn:E1; [reflexivity|lia].
  - pose proof (descending_head _ _ D1) as Hx.
    pose proof (descending_head _ _ D2) as Hy.
    cbn [length Nat.max countback_loop lexcmp].
    rewrite !index_or0_app. unfold index_or0. cbn [nth_error].
    destruct (x =? 0) eqn:Ex0; [lia|]. destruct (y =? 0) eqn:Ey0; [lia|].
    destruct (x >? y) eqn:E1; [reflexivity|].
    destruct (y >? x) eqn:E2; [reflexivity|].
    assert (y = x) as -> by lia.
    rewrite Z.eqb_refl. destruct (x >? 0) eqn:E3; [|lia]. cbn [andb].
    rewrite !occurrences_app, !occurrences_cons, Z.eqb_refl.
    pose proof (descending_bounded _ _ D1) as B1.
    pose proof (descending_bounded _ _ D2) as B2.
    pose proof (proj1 (descending_tail _ _ D1)) as S1.
    pose proof (proj1 (descending_tail _ _ D2)) as S2.
    set (c1 := occurrences x pre + (1 + occurrences x t1)).
    set (c2 := occurrences x pre + (1 + occurrences x t2)).
    destruct (c1 >? c2) eqn:C1.
    { symmetry. apply (more_occurrences_wins x); auto. lia. }
    destruct (c2 >? c1) eqn:C2.
    { rewrite lexcmp_antisym.
      rewrite (more_occurrences_wins x t2 t1); auto. lia. }
    replace (pre ++ x :: t1) with ((pre ++ [x]) ++ t1)
      by now rewrite <- app_assoc.
    replace (pre ++ x :: t2) with ((pre ++ [x]) ++ t2)
      by now rewrite <- app_assoc.
    replace (S (length pre)) with (length (pre ++ [x]))
      by (rewrite length_app; simpl; lia).
    apply IH; eapply descending_tail; eauto.
Qed.

Lemma countbackCompare_lexcmp p1 p2 :
  countbackCompare p1 p2
  = lexcmp (profile (eventScores p1)) (profile (eventScores p2)).
Proof.
  unfold countbackCompare.
  apply (countback_loop_lexcmp _ _ []); apply profile_descending.
Qed.

(** ** What the profile keeps *)

Lemma profile_In scores s :
  In s (profile scores) <-> In s scores /\ 0 < s.
Proof.
  unfold profile. rewrite js_sort_In, filter_In.
  split; intros [H1 H2]; split; auto; lia.
Qed.

Lemma occurrences_perm v l1 l2 :
  Permutation l1 l2 -> occurrences v l1 = occurrences v l2.
Proof.
  induction 1 as [|x l1 l2 _ IH|x y l|l1 l2 l3 _ IH1 _ IH2];
    rewrite ?occurrences_cons; lia.
Qed.

Lemma occurrences_absent v l : ~ In v l -> occurrences v l = 0.
Proof.
  induction l as [|x l IH]; intros Hn; [reflexivity|].
  rewrite occurrences_cons, IH by (intros H; apply Hn; now right).
  destruct (x =? v) eqn:E; [|reflexivity].
  exfalso. apply Hn. left. lia.
Qed.

Lemma occurrences_positive_scores v scores :
  0 < v -> occurrences v (positive_scores scores) = occurrences v scores.
Proof.
  intros Hv. induction scores as [|x l IH]; [reflexivity|].
  unfold positive_scores in *. simpl filter.
  destruct (x >? 0) eqn:E; rewrite !occurrences_cons, IH; [reflexivity|].
  destruct (x =? v) eqn:E'; lia.
Qed.

(** What the guard [s > 0] lets through: exactly the strictly positive
    entries of [eventScores], each as often as it occurs. *)
Lemma profile_keeps_positive_scores :
  forall scores : list Z,
    (forall s, In s (profile scores) <-> In s scores /\ 0 < s) /\
    (forall s, 0 < s -> occurrences s (profile scores) = occurrences s scores) /\
    (forall s, s <= 0 -> occurrences s (profile scores) = 0).
Proof.
  intros scores. split; [|split].
  - intros s. apply profile_In.
  - intros s Hs. rewrite (occurrences_perm _ _ _ (profile_perm scores)).
    now apply occurrences_positive_scores.
  - intros s Hs. apply occurrences_absent.
    intros Hx. apply profile_In in Hx as [_ Hx]. lia.
Qed.

(** C6: the code departs from the claim, and from its own comment ("Get all
    non-zero scores"), on negative scores: [-2] is an entry that is not
    zero, yet it is not part of the profile, and two players with the same
    totals whose scores differ only in their negative entries come out of
    the countback as tied. *)
Lemma negative_score_is_discarded :
  In (-2) (eventScores penalised_a) /\ -2 <> 0 /\
  ~ In (-2) (profile (eventScores penalised_a)) /\
  totalPoints penalised_a = totalPoints penalised_b /\
  countbackCompare penalised_a penalised_b = 0 /\
  arePlayersTied penalised_a penalised_b = true.
Proof.
  split; [right; left; reflexivity|].
  split; [discriminate|].
  split; [|repeat split].
  vm_compute. intros [H|[]]. discriminate.
Qed.

(** ** Padding with zeros *)

Lemma filter_repeat_zero n : filter (fun s => s >? 0) (repeat 0 n) = [].
Proof. induction n as [|n IH]; simpl; auto. Qed.

Lemma profile_append_zeros scores n :
  profile (scores ++ repeat 0 n) = profile scores.
Proof.
  unfold profile. now rewrite filter_app, filter_repeat_zero, app_nil_r.
Qed.

(** C7: appending any number of zero scores to either player's
    [eventScores] leaves [countbackCompare] unchanged. *)
Theorem countbackCompare_append_zeros :
  forall (a b : Player) (n m : nat),
    countbackCompare (append_zeros a n) (append_zeros b m)
    = countbackCompare a b.
Proof.
  intros a b n m. unfold countbackCompare, append_zeros. cbn [eventScores].
  now rewrite !profile_append_zeros.
Qed.

(** ** Symmetry, ties *)

Lemma countbackCompare_antisym a b :
  countbackCompare b a = - countbackCompare a b.
Proof. rewrite !countbackCompare_lexcmp. apply lexcmp_antisym. Qed.

Lemma countbackCompare_range a b :
  countbackCompare a b = -1 \/ countbackCompare a b = 0 \/
  countbackCompare a b = 1.
Proof. rewrite countbackCompare_lexcmp. apply lexcmp_range. Qed.

Lemma countbackCompare_zero_profile a b :
  countbackCompare a b = 0 <->
  profile (eventScores a) = profile (eventScores b).
Proof.
  rewrite countbackCompare_lexcmp. split.
  - apply lexcmp_eq.
  - intros ->. apply lexcmp_refl.
Qed.

Lemma profile_eq_iff_perm s1 s2 :
  profile s1 = profile s2 <->
  Permutation (positive_scores s1) (positive_scores s2).
Proof.
  split.
  - intros H. rewrite <- (profile_perm s1), <- (profile_perm s2), H.
    reflexivity.
  - intros H. apply descending_perm_eq; try apply profile_descending.
    now rewrite !profile_perm.
Qed.

Lemma arePlayersTied_spec a b :
  arePlayersTied a b = true <->
  totalPoints a = totalPoints b /\ totalSpending a = totalSpending b /\
  countbackCompare a b = 0.
Proof.
  unfold arePlayersTied.
  destruct (totalPoints a =? totalPoints b) eqn:E1; simpl; [|split; [discriminate|lia]].
  destruct (totalSpending a =? totalSpending b) eqn:E2; simpl; [|split; [discriminate|lia]].
  destruct (countbackCompare a b =? 0) eqn:E3; simpl; split; try discriminate; try lia.
Qed.

Lemma arePlayersTied_refl a : arePlayersTied a a = true.
Proof.
  apply arePlayersTied_spec. repeat split.
  now apply countbackCompare_zero_profile.
Qed.

Lemma arePlayersTied_sym a b :
  arePlayersTied a b = true -> arePlayersTied b a = true.
Proof.
  rewrite !arePlayersTied_spec, !countbackCompare_zero_profile.
  intros (-> & -> & ->). auto.
Qed.

Lemma arePlayersTied_trans a b c :
  arePlayersTied a b = true -> arePlayersTied b c = true ->
  arePlayersTied a c = true.
Proof.
  rewrite !arePlayersTied_spec, !countbackCompare_zero_profile.
  intros (-> & -> & ->) (-> & -> & ->). auto.
Qed.

(** * [detailedCountback] against [countbackCompare] *)

Lemma map_set_keys k v m :
  map fst (map_set k v m)
  = if existsb (fun k' => k' =? k) (map fst m)
    then map fst m else map fst m ++ [k].
Proof.
  induction m as [|[k' v'] m IH]; simpl; [reflexivity|].
  destruct (k' =? k) eqn:E; simpl; [reflexivity|].
  rewrite IH. now destruct (existsb _ _).
Qed.

Lemma map_set_NoDup k v m :
  NoDup (map fst m) -> NoDup (map fst (map_set k v m)).
Proof.
  intros Hnd. rewrite map_set_keys.
  destruct (existsb _ _) eqn:E; [assumption|].
  apply NoDup_app; [assumption|repeat constructor; auto|].
  intros x Hx [<-|[]].
  assert (existsb (fun k' => k' =? k) (map fst m) = true); [|congruence].
  apply existsb_exists. exists k. split; [assumption|lia].
Qed.

Lemma map_get_ok k m c :
  entries_ok m -> map_get k m = Some c -> 1 <= c.
Proof.
  induction 1 as [|[k' v'] m [_ Hv] _ IH]; simpl; [discriminate|].
  destruct (k' =? k); [|exact IH]. intros [= <-]. exact Hv.
Qed.

Lemma or0_map_get_nonneg k m : entries_ok m -> 0 <= or0 (map_get k m).
Proof.
  intros Hm. destruct (map_get k m) as [c|] eqn:E; simpl; [|lia].
  apply (map_get_ok _ _ _ Hm) in E. destruct (c =? 0); lia.
Qed.

Lemma map_set_ok k v m :
  0 < k -> 1 <= v -> entries_ok m -> entries_ok (map_set k v m).
Proof.
  intros Hk Hv. induction 1 as [|[k' v'] m [Hk' Hv'] Hm IH]; simpl.
  - repeat constructor; assumption.
  - destruct (k' =? k); constructor; auto.
Qed.

Lemma repeat_succ_Z (k c : Z) :
  0 <= c -> repeat k (Z.to_nat (c + 1)) = k :: repeat k (Z.to_nat c).
Proof.
  intros Hc. replace (Z.to_nat (c + 1)) with (S (Z.to_nat c)) by lia.
  reflexivity.
Qed.

Lemma map_set_expand k m :
  0 < k -> entries_ok m ->
  Permutation (expand (map_set k (or0 (map_get k m) + 1) m))
              (k :: expand m).
Proof.
  intros Hk. induction 1 as [|[k' v'] m [Hk' Hv'] Hm IH]; simpl.
  - reflexivity.
  - simpl in Hk', Hv'. destruct (k' =? k) eqn:E; simpl.
    + assert (k' = k) as -> by lia.
      destruct (v' =? 0) eqn:E0; [lia|].
      rewrite repeat_succ_Z by lia. reflexivity.
    + unfold expand in IH. rewrite IH. symmetry. apply Permutation_middle.
Qed.

Lemma count_score_ok m s : entries_ok m -> entries_ok (count_score m s).
Proof.
  intros Hm. unfold count_score. destruct (s >? 0) eqn:E; [|assumption].
  apply map_set_ok; [lia| |assumption].
  pose proof (or0_map_get_nonneg s m Hm). lia.
Qed.

Lemma count_score_NoDup m s :
  NoDup (map fst m) -> NoDup (map fst (count_score m s)).
Proof.
  intros Hm. unfold count_score. destruct (s >? 0); [|assumption].
  now apply map_set_NoDup.
Qed.

Lemma count_score_expand m s :
  entries_ok m ->
  Permutation (expand (count_score m s)) (positive_scores [s] ++ expand m).
Proof.
  intros Hm. unfold count_score, positive_scores. simpl.
  destruct (s >? 0) eqn:E; [|reflexivity].
  apply map_set_expand; [lia|assumption].
Qed.

Lemma positive_scores_cons s scores :
  positive_scores (s :: scores) = positive_scores [s] ++ positive_scores scores.
Proof. unfold positive_scores. simpl. now destruct (s >? 0). Qed.

Lemma fold_count_score scores : forall m,
  entries_ok m -> NoDup (map fst m) ->
  let m' := fold_left count_score scores m in
  entries_ok m' /\ NoDup (map fst m') /\
  Permutation (expand m') (expand m ++ positive_scores scores).
Proof.
  induction scores as [|s scores IH]; intros m Hm Hnd; cbn [fold_left].
  - cbn zeta. unfold positive_scores. simpl. rewrite app_nil_r. auto.
  - destruct (IH (count_score m s)) as (H1 & H2 & H3);
      [now apply count_score_ok|now apply count_score_NoDup|].
    cbn zeta. split; [assumption|]. split; [assumption|].
    rewrite H3, (count_score_expand m s Hm), (positive_scores_cons s scores).
    rewrite !app_assoc. apply Permutation_app_tail, Permutation_app_comm.
Qed.

Lemma getScoreFrequency_facts p :
  entries_ok (getScoreFrequency p) /\
  NoDup (map fst (getScoreFrequency p)) /\
  Permutation (expand (getScoreFrequency p))
              (positive_scores (eventScores p)).
Proof.
  apply (fold_count_score (eventScores p) []); constructor.
Qed.

Lemma entry_compare_connex a b :
  0 < entry_compare a b -> entry_compare b a <= 0.
Proof.
  unfold entry_compare.
  destruct (fst b =? fst a) eqn:E1, (fst a =? fst b) eqn:E2; simpl; lia.
Qed.

Lemma entry_compare_trans a b c :
  entry_compare a b <= 0 -> entry_compare b c <= 0 ->
  entry_compare a c <= 0.
Proof.
  unfold entry_compare.
  destruct (fst b =? fst a) eqn:E1, (fst c =? fst b) eqn:E2,
           (fst c =? fst a) eqn:E3; simpl; lia.
Qed.

(** Sorted entries with distinct scores are strictly decreasing in score. *)
Lemma sorted_entries_strict freq :
  StronglySorted (in_order entry_compare) freq -> NoDup (map fst freq) ->
  StronglySorted (fun a b => fst b < fst a) freq.
Proof.
  induction 1 as [|a l Hl IH Ha]; intros Hnd; constructor.
  - apply IH. now inversion Hnd.
  - inversion Hnd as [|? ? Hnotin _]; subst.
    rewrite Forall_forall in Ha |- *. intros b Hb.
    specialize (Ha b Hb). unfold in_order, entry_compare in Ha.
    assert (fst b <> fst a).
    { intros Heq. apply Hnotin. rewrite <- Heq. now apply in_map. }
    destruct (fst b =? fst a) eqn:E; simpl in Ha; lia.
Qed.

Lemma sorted_frequency_run_encoding p :
  run_encoding (js_sort entry_compare (getScoreFrequency p)).
Proof.
  destruct (getScoreFrequency_facts p) as (Hok & Hnd & _).
  pose proof (js_sort_perm entry_compare (getScoreFrequency p)) as Hperm.
  split.
  - apply sorted_entries_strict.
    + apply js_sort_strongly_sorted;
        [apply entry_compare_connex|apply entry_compare_trans].
    + eapply Permutation_NoDup; [|exact Hnd].
      apply Permutation_map. now symmetry.
  - unfold entries_ok. eapply Permutation_Forall; [|exact Hok].
    now symmetry.
Qed.

Lemma run_encoding_tail e freq : run_encoding (e :: freq) -> run_encoding freq.
Proof.
  intros [Hs Hok]. inversion Hs; inversion Hok; subst. now split.
Qed.

(** Every score of the profile of a run encoding is below the scores of the
    entries in front of it. *)
Lemma expand_below k freq :
  Forall (fun e => fst e < k) freq -> Forall (fun s => s < k) (expand freq).
Proof.
  induction 1 as [|e l He _ IH]; simpl; [constructor|].
  apply Forall_app. split; [|exact IH].
  apply Forall_forall. intros s Hs. apply repeat_spec in Hs. now subst.
Qed.

Lemma StronglySorted_repeat_app k n l :
  StronglySorted Z.ge l -> Forall (fun s => s <= k) l ->
  StronglySorted Z.ge (repeat k n ++ l).
Proof.
  intros Hl Hk. induction n as [|n IH]; simpl; [assumption|].
  constructor; [assumption|].
  apply Forall_app. split.
  - apply Forall_forall. intros s Hs. apply repeat_spec in Hs. lia.
  - eapply Forall_impl; [|exact Hk]. simpl. intros; lia.
Qed.

Lemma Forall_lt_le k (l : list Z) :
  Forall (fun s => s < k) l -> Forall (fun s => s <= k) l.
Proof. apply Forall_impl. intros; lia. Qed.

Lemma run_encoding_head_bound e freq :
  run_encoding (e :: freq) -> Forall (fun s => s < fst e) (expand freq).
Proof.
  intros [Hs _]. inversion Hs as [|? ? _ He]; subst.
  now apply expand_below.
Qed.

Lemma expand_sorted freq :
  run_encoding freq -> StronglySorted Z.ge (expand freq).
Proof.
  induction freq as [|e freq IH]; intros Hr; simpl; [constructor|].
  apply StronglySorted_repeat_app.
  - apply IH. eapply run_encoding_tail; eauto.
  - apply Forall_lt_le. now apply run_encoding_head_bound.
Qed.

(** The sorted frequency entries of a player are the run encoding of the
    player's profile. *)
Lemma expand_sorted_frequency p :
  expand (js_sort entry_compare (getScoreFrequency p))
  = profile (eventScores p).
Proof.
  pose proof (sorted_frequency_run_encoding p) as Hr.
  apply descending_perm_eq.
  - now apply expand_sorted.
  - apply profile_descending.
  - destruct (getScoreFrequency_facts p) as (_ & _ & Hperm).
    rewrite profile_perm. fold (positive_scores (eventScores p)).
    rewrite <- Hperm. unfold expand.
    apply Permutation_flat_map, js_sort_perm.
Qed.

Lemma entry_or00_tail freq i : entry_or00 freq (S i) = entry_or00 (tl freq) i.
Proof. destruct freq; [now destruct i|reflexivity]. Qed.

(** Starting the loop one position later is starting it on the tails. *)
Lemma detailed_loop_shift freq1 freq2 steps : forall i,
  detailed_loop freq1 freq2 steps (S i)
  = detailed_loop (tl freq1) (tl freq2) steps i.
Proof.
  induction steps as [|steps IH]; intros i; [reflexivity|].
  cbn [detailed_loop]. rewrite !entry_or00_tail, IH. reflexivity.
Qed.

Lemma occurrences_repeat k n : occurrences k (repeat k n) = Z.of_nat n.
Proof.
  induction n as [|n IH]; [reflexivity|].
  cbn [repeat]. rewrite occurrences_cons, IH, Z.eqb_refl. lia.
Qed.

Lemma expand_cons_nonempty k c freq :
  1 <= c -> exists l, expand ((k, c) :: freq) = k :: l.
Proof.
  intros Hc. unfold expand. cbn [flat_map fst snd].
  destruct (Z.to_nat c) as [|n] eqn:E; [lia|].
  simpl. eauto.
Qed.

(** The loop of [detailedCountback] on two run encodings is the
    position-by-position comparison of the profiles they stand for. *)
Lemma detailed_loop_lexcmp freq1 : forall freq2,
  run_encoding freq1 -> run_encoding freq2 ->
  detailed_loop freq1 freq2 (Nat.max (length freq1) (length freq2)) 0
  = lexcmp (expand freq1) (expand freq2).
Proof.
  induction freq1 as [|[k1 c1] freq1 IH]; intros [|[k2 c2] freq2] R1 R2.
  - reflexivity.
  - destruct R2 as [_ Hok]. inversion Hok as [|? ? [Hk Hc] _]; subst.
    simpl in Hk, Hc.
    destruct (expand_cons_nonempty k2 c2 freq2 Hc) as [l ->].
    cbn [length Nat.max detailed_loop entry_or00 nth_error expand flat_map
         lexcmp].
    destruct (0 >? k2) eqn:E1; [lia|].
    destruct (k2 >? 0) eqn:E2; [reflexivity|lia].
  - destruct R1 as [_ Hok]. inversion Hok as [|? ? [Hk Hc] _]; subst.
    simpl in Hk, Hc.
    destruct (expand_cons_nonempty k1 c1 freq1 Hc) as [l ->].
    cbn [length Nat.max detailed_loop entry_or00 nth_error expand flat_map
         lexcmp].
    destruct (k1 >? 0) eqn:E1; [reflexivity|lia].
  - pose proof (run_encoding_head_bound _ _ R1) as B1.
    pose proof (run_encoding_head_bound _ _ R2) as B2.
    pose proof (expand_sorted _ R1) as S1.
    pose proof (expand_sorted _ R2) as S2.
    pose proof (run_encoding_tail _ _ R1) as T1.
    pose proof (run_encoding_tail _ _ R2) as T2.
    destruct R1 as [_ Hok1]. inversion Hok1 as [|? ? [Hk1 Hc1] _]; subst.
    destruct R2 as [_ Hok2]. inversion Hok2 as [|? ? [Hk2 Hc2] _]; subst.
    cbn [fst snd] in *.
    cbn [length Nat.max detailed_loop entry_or00 nth_error].
    destruct (expand_cons_nonempty k1 c1 freq1 Hc1) as [l1 E1].
    destruct (expand_cons_nonempty k2 c2 freq2 Hc2) as [l2 E2].
    destruct (k1 >? k2) eqn:G1.
    { rewrite E1, E2. cbn [lexcmp]. now rewrite G1. }
    destruct (k2 >? k1) eqn:G2.
    { rewrite E1, E2. cbn [lexcmp]. now rewrite G1, G2. }
    assert (k2 = k1) as -> by lia. clear E1 E2 l1 l2.
    assert (O1 : occurrences k1 (expand ((k1, c1) :: freq1)) = c1).
    { unfold expand. cbn [flat_map fst snd].
      rewrite occurrences_app, occurrences_repeat.
      fold (expand freq1). rewrite (occurrences_below _ _ B1). lia. }
    assert (O2 : occurrences k1 (expand ((k1, c2) :: freq2)) = c2).
    { unfold expand. cbn [flat_map fst snd].
      rewrite occurrences_app, occurrences_repeat.
      fold (expand freq2). rewrite (occurrences_below _ _ B2). lia. }
    assert (U1 : Forall (fun s => s <= k1) (expand ((k1, c1) :: freq1))).
    { unfold expand. cbn [flat_map fst snd]. apply Forall_app. split.
      - apply Forall_forall. intros s Hs. apply repeat_spec in Hs. lia.
      - now apply Forall_lt_le. }
    assert (U2 : Forall (fun s => s <= k1) (expand ((k1, c2) :: freq2))).
    { unfold expand. cbn [flat_map fst snd]. apply Forall_app. split.
      - apply Forall_forall. intros s Hs. apply repeat_spec in Hs. lia.
      - now apply Forall_lt_le. }
    destruct (c1 >? c2) eqn:G3.
    { symmetry. apply (more_occurrences_wins k1); auto. lia. }
    destruct (c2 >? c1) eqn:G4.
    { rewrite lexcmp_antisym, (more_occurrences_wins k1 _ _ S2 S1); auto.
      lia. }
    assert (c2 = c1) as -> by lia.
    rewrite detailed_loop_shift. cbn [tl].
    rewrite IH by assumption.
    unfold expand. cbn [flat_map fst snd]. now rewrite lexcmp_app.
Qed.

(** C9: on every pair of players the position-by-position walk of
    [countbackCompare] and the walk of [detailedCountback] over the sorted
    (score, count) entries return the same decision. *)
Theorem countbackCompare_eq_detailedCountback :
  forall p1 p2 : Player, countbackCompare p1 p2 = detailedCountback p1 p2.
Proof.
  intros p1 p2. rewrite countbackCompare_lexcmp. unfold detailedCountback.
  cbn zeta.
  rewrite detailed_loop_lexcmp by apply sorted_frequency_run_encoding.
  now rewrite !expand_sorted_frequency.
Qed.

(** * The comparator of [sortPlayers] *)

Lemma string_compare_trans s : forall t u,
  String.compare s t <> Gt -> String.compare t u <> Gt ->
  String.compare s u <> Gt.
Proof.
  induction s as [|a s IH]; intros [|b t] [|c u]; simpl; try congruence.
  unfold Ascii.compare.
  destruct (N.compare_spec (Ascii.N_of_ascii a) (Ascii.N_of_ascii b)) as [E1|E1|E1];
    destruct (N.compare_spec (Ascii.N_of_ascii b) (Ascii.N_of_ascii c)) as [E2|E2|E2];
    destruct (N.compare_spec (Ascii.N_of_ascii a) (Ascii.N_of_ascii c)) as [E3|E3|E3];
    try congruence; try lia.
  apply IH.
Qed.

Lemma codepointCompare_antisym s t :
  Z.sgn (codepointCompare t s) = - Z.sgn (codepointCompare s t).
Proof.
  unfold codepointCompare. rewrite (String.compare_antisym s t).
  now destruct (String.compare t s).
Qed.

Lemma codepointCompare_trans s t u :
  codepointCompare s t <= 0 -> codepointCompare t u <= 0 ->
  codepointCompare s u <= 0.
Proof.
  unfold codepointCompare. intros H1 H2.
  pose proof (string_compare_trans s t u) as H.
  destruct (String.compare s t), (String.compare t u),
           (String.compare s u); try lia; exfalso; apply H; congruence.
Qed.

Lemma canonicalCompare_antisym s t :
  Z.sgn (canonicalCompare t s) = - Z.sgn (canonicalCompare s t).
Proof. apply codepointCompare_antisym. Qed.

Lemma canonicalCompare_trans s t u :
  canonicalCompare s t <= 0 -> canonicalCompare t u <= 0 ->
  canonicalCompare s u <= 0.
Proof. apply codepointCompare_trans. Qed.

Section Comparator.
Variable localeCompare : string -> string -> Z.

Local Abbreviation compare := (comparePlayers localeCompare).

(** [localeCompare] is a consistent comparator. *)
Hypothesis localeCompare_antisym :
  forall s t, Z.sgn (localeCompare t s) = - Z.sgn (localeCompare s t).
Hypothesis localeCompare_trans :
  forall s t u,
    localeCompare s t <= 0 -> localeCompare t u <= 0 ->
    localeCompare s u <= 0.

Lemma comparePlayers_le a b :
  compare a b <= 0 <-> ranked_before localeCompare a b.
Proof.
  unfold comparePlayers, ranked_before.
  destruct (totalPoints a =? totalPoints b) eqn:E1; simpl; [|lia].
  destruct (totalSpending a =? totalSpending b) eqn:E2; simpl; [|lia].
  destruct (countbackCompare a b =? 0) eqn:E3; simpl; lia.
Qed.

Lemma comparePlayers_antisym a b :
  Z.sgn (compare b a) = - Z.sgn (compare a b).
Proof.
  unfold comparePlayers.
  rewrite (Z.eqb_sym (totalPoints b)), (Z.eqb_sym (totalSpending b)).
  destruct (totalPoints a =? totalPoints b) eqn:E1; simpl; [|lia].
  destruct (totalSpending a =? totalSpending b) eqn:E2; simpl; [|lia].
  rewrite (countbackCompare_antisym a b).
  destruct (countbackCompare a b =? 0) eqn:E3.
  - assert (countbackCompare a b = 0) as -> by lia. simpl.
    apply localeCompare_antisym.
  - destruct (- countbackCompare a b =? 0) eqn:E4; simpl; lia.
Qed.

Lemma comparePlayers_connex a b : 0 < compare a b -> compare b a <= 0.
Proof. pose proof (comparePlayers_antisym a b). lia. Qed.

Lemma countbackCompare_trans a b c :
  countbackCompare a b <= 0 -> countbackCompare b c <= 0 ->
  countbackCompare a c <= 0.
Proof. rewrite !countbackCompare_lexcmp. apply lexcmp_trans. Qed.

Lemma countbackCompare_zero_l a b c :
  countbackCompare a b = 0 -> countbackCompare a c = countbackCompare b c.
Proof.
  intros H. apply countbackCompare_zero_profile in H.
  rewrite !countbackCompare_lexcmp. now rewrite H.
Qed.

Lemma countbackCompare_zero_r a b c :
  countbackCompare b c = 0 -> countbackCompare a c = countbackCompare a b.
Proof.
  intros H. apply countbackCompare_zero_profile in H.
  rewrite !countbackCompare_lexcmp. now rewrite H.
Qed.

Lemma ranked_before_trans a b c :
  ranked_before localeCompare a b -> ranked_before localeCompare b c ->
  ranked_before localeCompare a c.
Proof.
  unfold ranked_before.
  intros [H1|[(H1 & H1')|[(H1 & H1' & H1'')|(H1 & H1' & H1'' & H1''')]]]
         [H2|[(H2 & H2')|[(H2 & H2' & H2'')|(H2 & H2' & H2'' & H2''')]]];
    try (left; lia); try (right; left; lia).
  - (* countback decides both *)
    right; right; left. repeat split; try lia.
    pose proof (countbackCompare_trans a b c ltac:(lia) ltac:(lia)) as Hle.
    destruct (Z.eq_dec (countbackCompare a c) 0) as [E|]; [|lia].
    rewrite (countbackCompare_zero_l a c b E) in H1''.
    pose proof (countbackCompare_antisym b c). lia.
  - right; right; left. repeat split; try lia.
    now rewrite (countbackCompare_zero_r a b c H2'').
  - right; right; left. repeat split; try lia.
    now rewrite (countbackCompare_zero_l a b c H1'').
  - right; right; right. repeat split; try lia.
    + now rewrite (countbackCompare_zero_l a b c H1'').
    + eapply localeCompare_trans; eauto.
Qed.

Lemma comparePlayers_trans a b c :
  compare a b <= 0 -> compare b c <= 0 -> compare a c <= 0.
Proof. rewrite !comparePlayers_le. apply ranked_before_trans. Qed.

Lemma comparePlayers_refl a : compare a a = 0.
Proof. pose proof (comparePlayers_antisym a a). lia. Qed.

Lemma comparePlayers_zero a b :
  compare a b = 0 <->
  arePlayersTied a b = true /\ localeCompare (name a) (name b) = 0.
Proof.
  rewrite arePlayersTied_spec. unfold comparePlayers.
  destruct (totalPoints a =? totalPoints b) eqn:E1; simpl; [|lia].
  destruct (totalSpending a =? totalSpending b) eqn:E2; simpl; [|lia].
  destruct (countbackCompare a b =? 0) eqn:E3; simpl; lia.
Qed.

Lemma comparePlayers_zero_trans a b c :
  compare a b = 0 -> compare b c = 0 -> compare a c = 0.
Proof.
  intros Hab Hbc.
  pose proof (comparePlayers_antisym a b).
  pose proof (comparePlayers_antisym b c).
  pose proof (comparePlayers_antisym a c).
  pose proof (comparePlayers_trans a b c ltac:(lia) ltac:(lia)).
  pose proof (comparePlayers_trans c b a ltac:(lia) ltac:(lia)).
  lia.
Qed.

(** C5, as the code has it: the comparator of [sortPlayers] is a strict weak
    order. No player ranks above itself and ranking above is transitive; two
    players compare as equal exactly when they tie on points, spending and
    countback and [localeCompare] returns 0 on their names, and comparing
    as equal is transitive; two players whose names [localeCompare] tells
    apart are ordered one way or the other. Names that differ as strings
    are not enough: [localeCompare] decides. *)
Theorem comparePlayers_strict_weak_order :
  (forall a : Player, ~ ranks_above localeCompare a a) /\
  (forall a b c : Player,
      ranks_above localeCompare a b -> ranks_above localeCompare b c ->
      ranks_above localeCompare a c) /\
  (forall a b : Player,
      compare a b = 0 <->
      totalPoints a = totalPoints b /\ totalSpending a = totalSpending b /\
      countbackCompare a b = 0 /\ localeCompare (name a) (name b) = 0) /\
  (forall a b c : Player,
      compare a b = 0 -> compare b c = 0 -> compare a c = 0) /\
  (forall a b : Player,
      localeCompare (name a) (name b) <> 0 ->
      ranks_above localeCompare a b \/ ranks_above localeCompare b a).
Proof.
  unfold ranks_above. split; [|split; [|split; [|split]]].
  - intros a. rewrite comparePlayers_refl. lia.
  - intros a b c Hab Hbc.
    pose proof (comparePlayers_trans a b c ltac:(lia) ltac:(lia)) as Hle.
    destruct (Z.eq_dec (compare a c) 0) as [E|]; [exfalso|lia].
    pose proof (comparePlayers_antisym a c) as Hca.
    pose proof (comparePlayers_antisym b c) as Hcb.
    pose proof (comparePlayers_trans c a b ltac:(lia) ltac:(lia)). lia.
  - intros a b. rewrite comparePlayers_zero, arePlayersTied_spec. tauto.
  - apply comparePlayers_zero_trans.
  - intros a b Hne.
    pose proof (comparePlayers_antisym a b) as Hba.
    destruct (Z.eq_dec (compare a b) 0) as [E|]; [exfalso|lia].
    apply Hne. now apply comparePlayers_zero in E as [_ E].
Qed.
End Comparator.

(** * Writes to the store *)

Lemma same_data_refl p : same_data p p.
Proof. repeat split. Qed.

Lemma same_data_trans p q r : same_data p q -> same_data q r -> same_data p r.
Proof. unfold same_data. intuition congruence. Qed.

Lemma countbackCompare_same_data a a' b b' :
  same_data a a' -> same_data b b' ->
  countbackCompare a b = countbackCompare a' b'.
Proof.
  intros (_ & Ha & _) (_ & Hb & _). unfold countbackCompare.
  now rewrite Ha, Hb.
Qed.

Lemma arePlayersTied_same_data a a' b b' :
  same_data a a' -> same_data b b' ->
  arePlayersTied a b = arePlayersTied a' b'.
Proof.
  intros Ha Hb. unfold arePlayersTied.
  rewrite (countbackCompare_same_data a a' b b' Ha Hb).
  destruct Ha as (_ & _ & _ & -> & ->), Hb as (_ & _ & _ & -> & ->).
  reflexivity.
Qed.

Lemma rank_advances_tied a b :
  rank_advances a b = negb (arePlayersTied a b).
Proof.
  unfold rank_advances, arePlayersTied.
  destruct (totalPoints a =? totalPoints b); simpl; [|reflexivity].
  destruct (totalSpending a =? totalSpending b); simpl; [|reflexivity].
  now destruct (countbackCompare a b =? 0).
Qed.

Lemma rank_advances_same_data a a' b b' :
  same_data a a' -> same_data b b' ->
  rank_advances a b = rank_advances a' b'.
Proof.
  intros Ha Hb.
  now rewrite !rank_advances_tied, (arePlayersTied_same_data a a' b b').
Qed.

Lemma comparePlayers_same_data lc a a' b b' :
  same_data a a' -> same_data b b' ->
  comparePlayers lc a b = comparePlayers lc a' b'.
Proof.
  intros Ha Hb. unfold comparePlayers.
  rewrite (countbackCompare_same_data a a' b b' Ha Hb).
  destruct Ha as (-> & _ & _ & -> & ->), Hb as (-> & _ & _ & -> & ->).
  reflexivity.
Qed.

Lemma set_rank_same_data h p r o : same_data (set_rank h p r o) (h o).
Proof. unfold set_rank. destruct (Nat.eqb o p); repeat split. Qed.

Lemma set_rank_isTied h p r o : isTied (set_rank h p r o) = isTied (h o).
Proof. unfold set_rank. now destruct (Nat.eqb o p). Qed.

Lemma set_rank_other h p r o : o <> p -> set_rank h p r o = h o.
Proof.
  intros Hne. unfold set_rank.
  destruct (Nat.eqb_spec o p); [contradiction|reflexivity].
Qed.

Lemma set_rank_rank h p r : rank (set_rank h p r p) = Some r.
Proof. unfold set_rank. now rewrite Nat.eqb_refl. Qed.

Lemma set_isTied_same_data h p b o : same_data (set_isTied h p b o) (h o).
Proof. unfold set_isTied. destruct (Nat.eqb o p); repeat split. Qed.

Lemma set_isTied_rank h p b o : rank (set_isTied h p b o) = rank (h o).
Proof. unfold set_isTied. now destruct (Nat.eqb o p). Qed.

Lemma set_isTied_other h p b o : o <> p -> set_isTied h p b o = h o.
Proof.
  intros Hne. unfold set_isTied.
  destruct (Nat.eqb_spec o p); [contradiction|reflexivity].
Qed.

Lemma set_isTied_isTied h p b o :
  isTied (set_isTied h p b o) = if Nat.eqb o p then Some b else isTied (h o).
Proof. unfold set_isTied. now destruct (Nat.eqb o p). Qed.

(** ** [assignRanks] *)

Lemma nth_error_middle {A} (pre : list A) x suf :
  nth_error (pre ++ x :: suf) (length pre) = Some x.
Proof. rewrite nth_error_app2 by lia. now rewrite Nat.sub_diag. Qed.

Lemma app_cons_assoc {A} (pre : list A) x suf :
  pre ++ x :: suf = (pre ++ [x]) ++ suf.
Proof. now rewrite <- app_assoc. Qed.

Lemma length_snoc {A} (pre : list A) x : length (pre ++ [x]) = S (length pre).
Proof. rewrite length_app. simpl. lia. Qed.

(** The loop of [assignRanks], from any position on, writes what
    [ranks_from] writes. *)
Lemma assignRanks_loop_ranks_from rest : forall pre currentRank h,
  assignRanks_loop (pre ++ rest) (length rest) (length pre) currentRank h
  = ranks_from rest (length pre) currentRank h.
Proof.
  induction rest as [|player rest IH]; intros pre currentRank h;
    [reflexivity|].
  cbn [length assignRanks_loop ranks_from].
  rewrite nth_error_middle.
  destruct rest as [|next rest'].
  - rewrite length_app. cbn [length].
    replace (length pre <? length pre + 1 - 1)%nat with false
      by (symmetry; apply Nat.ltb_ge; lia).
    reflexivity.
  - set (players := pre ++ player :: next :: rest').
    assert (Hnext : nth_error players (length pre + 1) = Some next).
    { unfold players. rewrite (app_cons_assoc pre player).
      replace (length pre + 1)%nat with (length (pre ++ [player]))
        by (rewrite length_snoc; lia).
      apply nth_error_middle. }
    assert (Hlt : (length pre <? length players - 1)%nat = true).
    { apply Nat.ltb_lt. unfold players. rewrite length_app. simpl. lia. }
    rewrite Hnext, Hlt.
    pose proof (IH (pre ++ [player])) as IH'.
    rewrite <- app_cons_assoc, length_snoc in IH'. fold players in IH'.
    destruct (rank_advances _ _); apply IH'.
Qed.

Lemma assignRanks_ranks_from players h :
  assignRanks players h = ranks_from players 0 1 h.
Proof. apply (assignRanks_loop_ranks_from players []). Qed.

Lemma ranks_from_frame rest : forall i currentRank h o,
  same_data (ranks_from rest i currentRank h o) (h o) /\
  isTied (ranks_from rest i currentRank h o) = isTied (h o) /\
  (~ In o rest -> ranks_from rest i currentRank h o = h o).
Proof.
  induction rest as [|player rest IH]; intros i currentRank h o.
  - simpl. repeat split.
  - cbn [ranks_from].
    set (h1 := set_rank h player currentRank).
    assert (H1 : same_data (h1 o) (h o) /\ isTied (h1 o) = isTied (h o) /\
                 (~ In o (player :: rest) -> h1 o = h o)).
    { split; [apply set_rank_same_data|].
      split; [apply set_rank_isTied|].
      intros Hn. apply set_rank_other. intros ->. apply Hn. now left. }
    destruct rest as [|next rest']; [exact H1|].
    destruct H1 as (D1 & T1 & O1).
    assert (forall r,
      same_data (ranks_from (next :: rest') (S i) r h1 o) (h o) /\
      isTied (ranks_from (next :: rest') (S i) r h1 o) = isTied (h o) /\
      (~ In o (player :: next :: rest') ->
       ranks_from (next :: rest') (S i) r h1 o = h o)) as Hr.
    { intros r. destruct (IH (S i) r h1 o) as (D & T & O).
      split; [eapply same_data_trans; eauto|].
      split; [congruence|].
      intros Hn. rewrite O by (intros H; apply Hn; now right). now apply O1. }
    destruct (rank_advances _ _); apply Hr.
Qed.

(** * [findTieGroups] *)

Lemma tie_inner_collect h player rest : forall pre group processed,
  tie_inner h (pre ++ rest) player (length rest) (length pre) group processed
  = collect (fun o => name (h o))
            (fun a b => arePlayersTied (h a) (h b))
            player rest group processed.
Proof.
  induction rest as [|other rest IH]; intros pre group processed;
    [reflexivity|].
  cbn [length tie_inner collect]. rewrite nth_error_middle.
  pose proof (IH (pre ++ [other])) as IH'.
  rewrite <- app_cons_assoc, length_snoc in IH'.
  destruct (bool_decide _); [apply IH'|].
  destruct (arePlayersTied _ _); apply IH'.
Qed.

Lemma tie_outer_groups_from h rest : forall pre tieGroups processed,
  tie_outer h (pre ++ rest) (length rest) (length pre) tieGroups processed
  = groups_from (fun o => name (h o))
                (fun a b => arePlayersTied (h a) (h b))
                rest tieGroups processed.
Proof.
  induction rest as [|player rest IH]; intros pre tieGroups processed;
    [reflexivity|].
  cbn [length tie_outer groups_from]. rewrite nth_error_middle.
  pose proof (IH (pre ++ [player])) as IH'.
  pose proof (tie_inner_collect h player rest (pre ++ [player])) as Hin.
  rewrite <- app_cons_assoc, length_snoc in IH', Hin.
  destruct (bool_decide _); [apply IH'|].
  rewrite Hin. destruct (collect _ _ _ _ _ _) as [group processed'].
  destruct (1 <? length group)%nat; apply IH'.
Qed.

Lemma findTieGroups_groups_from h players :
  findTieGroups h players
  = groups_from (fun o => name (h o))
                (fun a b => arePlayersTied (h a) (h b)) players [] ∅.
Proof. apply (tie_outer_groups_from h players []). Qed.

Section GroupingFacts.
Variable nm : ref -> string.
Variable tied : ref -> ref -> bool.

Lemma names_inj rest x y :
  NoDup (map nm rest) -> In x rest -> In y rest -> nm x = nm y -> x = y.
Proof.
  induction rest as [|z rest IH]; simpl; intros Hnd Hx Hy E; [tauto|].
  inversion Hnd as [|? ? Hnotin Hnd']; subst.
  destruct Hx as [->|Hx], Hy as [->|Hy]; auto.
  - exfalso. apply Hnotin. rewrite E. now apply in_map.
  - exfalso. apply Hnotin. rewrite <- E. now apply in_map.
Qed.

Lemma in_names_filter rest f x :
  NoDup (map nm rest) -> In x rest ->
  In (nm x) (map nm (filter f rest)) -> f x = true.
Proof.
  intros Hnd Hx Hin. apply in_map_iff in Hin as (z & E & Hz).
  apply filter_In in Hz as [Hz Hf].
  now rewrite <- (names_inj rest z x Hnd Hz Hx E).
Qed.

(** The inner loop gathers the players of [rest] tied with [player],
    provided none of them has been processed. *)
Lemma collect_spec player rest : forall group processed,
  NoDup (map nm rest) ->
  (forall o, In o rest -> tied player o = true -> nm o ∉ processed) ->
  collect nm tied player rest group processed
  = (group ++ filter (tied player) rest,
     list_to_set (map nm (filter (tied player) rest)) ∪ processed).
Proof.
  induction rest as [|other rest IH]; intros group processed Hnd Hfree.
  - simpl. rewrite app_nil_r. f_equal. set_solver.
  - inversion Hnd as [|? ? Hnotin Hnd']; subst.
    cbn [collect filter]. case_bool_decide as Hproc.
    + destruct (tied player other) eqn:E.
      { exfalso. eapply Hfree; eauto. now left. }
      apply IH; [assumption|]. intros o Ho. apply Hfree. now right.
    + destruct (tied player other) eqn:E.
      * rewrite IH; [|assumption|].
        -- rewrite <- app_assoc. cbn [map list_to_set]. f_equal.
           set_solver.
        -- intros o Ho Ht. specialize (Hfree o (or_intror Ho) Ht).
           assert (nm o <> nm other).
           { intros Heq. apply Hnotin. rewrite <- Heq. now apply in_map. }
           set_solver.
      * apply IH; [assumption|]. intros o Ho. apply Hfree. now right.
Qed.

Hypothesis tied_sym : forall x y, tied x y = true -> tied y x = true.
Hypothesis tied_trans :
  forall x y z, tied x y = true -> tied y z = true -> tied x z = true.

Lemma names_closed_tail player rest processed :
  names_closed nm tied (player :: rest) processed ->
  names_closed nm tied rest processed.
Proof.
  intros Hc x y Hx Hy. apply Hc; now right.
Qed.

(** After a leader's group has been gathered, the processed names still
    do not separate tied players among the rest. *)
Lemma names_closed_step player rest processed :
  NoDup (map nm (player :: rest)) ->
  names_closed nm tied (player :: rest) processed ->
  names_closed nm tied rest
    (list_to_set (map nm (filter (tied player) rest))
     ∪ ({[nm player]} ∪ processed)).
Proof.
  intros Hnd Hc x y Hx Hy Hxy Hin.
  inversion Hnd as [|? ? Hnotin Hnd']; subst.
  apply elem_of_union in Hin as [Hin|Hin].
  - apply elem_of_union_l, elem_of_list_to_set, list_elem_of_In.
    apply elem_of_list_to_set, list_elem_of_In in Hin.
    apply (in_names_filter rest _ x Hnd' Hx) in Hin.
    apply in_map, filter_In. split; [assumption|]. eauto.
  - apply elem_of_union in Hin as [Hin|Hin].
    + exfalso. apply elem_of_singleton in Hin. apply Hnotin.
      rewrite <- Hin. now apply in_map.
    + apply elem_of_union_r, elem_of_union_r.
      apply (Hc x y); auto; now right.
Qed.

(** Who ends up in a tie group: the players of [rest] not yet processed
    that are tied with another player of [rest]. *)
Lemma groups_from_In rest : forall tieGroups processed,
  NoDup (map nm rest) -> names_closed nm tied rest processed ->
  forall x,
    In x (concat (groups_from nm tied rest tieGroups processed)) <->
    In x (concat tieGroups) \/
    (In x rest /\ (nm x ∉ processed) /\
     exists y, In y rest /\ y <> x /\ tied x y = true).
Proof.
  induction rest as [|player rest IH]; intros tieGroups processed Hnd Hc x.
  - simpl. split; [auto|]. intros [H|(H & _)]; [assumption|contradiction].
  - pose proof Hnd as Hnd0.
    inversion Hnd as [|? ? Hnotin Hnd']; subst.
    cbn [groups_from]. case_bool_decide as Hproc.
    + rewrite (IH _ _ Hnd' (names_closed_tail _ _ _ Hc)).
      split; (intros [H|(Hx & Hnp & y & Hy & Hne & Ht)]; [now left|right]).
      * split; [now right|]. split; [assumption|].
        exists y. split; [now right|auto].
      * destruct Hx as [<-|Hx]; [contradiction|].
        split; [assumption|]. split; [assumption|].
        exists y. split; [|auto].
        destruct Hy as [<-|Hy]; [|assumption].
        exfalso. apply Hnp. apply (Hc player x); auto; now left + right.
    + rewrite collect_spec; [|assumption|].
      2:{ intros o Ho Ht Hin.
          apply elem_of_union in Hin as [Hin|Hin].
          - apply elem_of_singleton in Hin. apply Hnotin.
            rewrite <- Hin. now apply in_map.
          - apply Hproc. apply (Hc o player); auto; now left + right. }
      set (F := filter (tied player) rest).
      set (P' := list_to_set (map nm F) ∪ ({[nm player]} ∪ processed)).
      pose proof (names_closed_step player rest processed Hnd0 Hc) as Hc'.
      fold F in Hc'. fold P' in Hc'.
      assert (HP' : forall z, In z rest ->
                (nm z ∈ P' <-> tied player z = true \/ nm z ∈ processed)).
      { intros z Hz. unfold P'. rewrite !elem_of_union.
        rewrite elem_of_list_to_set, list_elem_of_In, elem_of_singleton.
        split.
        - intros [H|[H|H]]; [left|exfalso|now right].
          + now apply (in_names_filter rest _ z Hnd' Hz).
          + apply Hnotin. rewrite <- H. now apply in_map.
        - intros [H|H]; [left|now right; right].
          apply in_map, filter_In. auto. }
      assert (Hgoal :
        In x (player :: F) /\ F <> [] \/
        (In x rest /\ (nm x ∉ P') /\
         exists y, In y rest /\ y <> x /\ tied x y = true) <->
        (In x (player :: rest) /\ (nm x ∉ processed) /\
         exists y, In y (player :: rest) /\ y <> x /\ tied x y = true)).
      { assert (Hpr : ~ In player rest).
        { intros H. apply Hnotin. now apply in_map. }
        split.
        - intros [[[<-|Hx] HF]|(Hx & Hnp & y & Hy & Hne & Ht)].
          + split; [now left|]. split; [assumption|].
            destruct F as [|z F'] eqn:EF; [congruence|].
            assert (Hz : In z F) by (rewrite EF; now left).
            apply filter_In in Hz as [Hz Hzt].
            exists z. split; [now right|]. split; [|assumption].
            intros ->. contradiction.
          + apply filter_In in Hx as [Hx Hxt].
            split; [now right|]. split.
            * intros Hin. apply Hproc.
              apply (Hc x player); auto; now left + right.
            * exists player. split; [now left|]. split; [|auto].
              intros ->. contradiction.
          + split; [now right|]. split.
            * intros Hin. apply Hnp, HP'; auto.
            * exists y. split; [now right|auto].
        - intros ([<-|Hx] & Hnp & y & Hy & Hne & Ht).
          + left. split; [now left|].
            destruct Hy as [->|Hy]; [congruence|].
            intros HF. assert (In y F) by (apply filter_In; auto).
            rewrite HF in *. contradiction.
          + destruct (tied player x) eqn:Epx.
            * left. split; [right; apply filter_In; auto|].
              intros HF. assert (In x F) by (apply filter_In; auto).
              rewrite HF in *. contradiction.
            * right. split; [assumption|]. split.
              -- rewrite (HP' x Hx). intros [H|H]; congruence.
              -- exists y. split; [|auto].
                 destruct Hy as [<-|Hy]; [|assumption].
                 apply tied_sym in Ht. congruence. }
      cbn [length].
      destruct F as [|z F'] eqn:EF.
      * cbn [app length]. change (1 <? 1)%nat with false. cbv iota.
        rewrite (IH _ _ Hnd' Hc'). rewrite <- Hgoal.
        split; (intros [H|H]; [now left|right]).
        -- now right.
        -- destruct H as [[_ H]|H]; [congruence|assumption].
      * cbn [app length].
        change (1 <? S (S (length F')))%nat with true. cbv iota.
        rewrite (IH _ _ Hnd' Hc'). rewrite <- Hgoal.
        rewrite concat_app. cbn [concat]. rewrite app_nil_r, in_app_iff.
        split.
        -- intros [[H|H]|H]; [now left| |right; now right].
           right. left. split; [assumption|congruence].
        -- intros [H|[[H _]|H]]; [left; now left|left; now right|now right].
Qed.

Hypothesis tied_refl : forall x, tied x x = true.

(** Every group the outer loop adds is a whole tie class, as long as the
    players already visited are all processed and the processed names do
    not separate tied players. *)
Lemma groups_from_whole players rest : forall pre tieGroups processed,
  players = pre ++ rest ->
  NoDup (map nm players) ->
  names_closed nm tied players processed ->
  (forall y, In y pre -> nm y ∈ processed) ->
  forall group,
    In group (groups_from nm tied rest tieGroups processed) ->
    In group tieGroups \/ whole_tie_class tied players group.
Proof.
  induction rest as [|player rest IH];
    intros pre tieGroups processed Hs Hnd Hc Hpre group Hg.
  - now left.
  - cbn [groups_from] in Hg.
    assert (Hs' : players = (pre ++ [player]) ++ rest)
      by now rewrite <- app_cons_assoc.
    assert (Hplayer : In player players).
    { rewrite Hs. apply in_app_iff. right. now left. }
    assert (Hrest : forall y, In y rest -> In y players).
    { intros y Hy. rewrite Hs. apply in_app_iff. right. now right. }
    assert (Hcases : forall y, In y players ->
              In y pre \/ y = player \/ In y rest).
    { intros y Hy. rewrite Hs in Hy. apply in_app_iff in Hy. simpl in Hy.
      intuition. }
    assert (Hnd_rest : NoDup (map nm rest)).
    { rewrite Hs', map_app in Hnd. now apply NoDup_app_remove_l in Hnd. }
    assert (Hnotin : ~ In player rest).
    { intros Hin. rewrite Hs, map_app in Hnd.
      apply NoDup_app_remove_l in Hnd. cbn [map] in Hnd.
      inversion Hnd as [|? ? Hn _]; subst. apply Hn. now apply in_map. }
    case_bool_decide as Hproc.
    + apply (IH (pre ++ [player]) _ _ Hs' Hnd Hc); [|assumption].
      intros y Hy. apply in_app_iff in Hy as [Hy|[<-|[]]]; auto.
    + rewrite collect_spec in Hg; [|assumption|].
      2:{ intros o Ho Ht Hin.
          apply elem_of_union in Hin as [Hin|Hin].
          - apply elem_of_singleton in Hin.
            apply Hnotin.
            now rewrite <- (names_inj players o player Hnd (Hrest o Ho)
                              Hplayer Hin).
          - apply Hproc. apply (Hc o player); auto. }
      set (F := filter (tied player) rest) in *.
      set (P' := list_to_set (map nm F) ∪ ({[nm player]} ∪ processed)) in *.
      assert (HF : forall y, In y players ->
                (nm y ∈ P' <->
                 nm y ∈ processed \/ y = player \/ In y F)).
      { intros y Hy. unfold P'. rewrite !elem_of_union.
        rewrite elem_of_list_to_set, list_elem_of_In, elem_of_singleton.
        split.
        - intros [H|[H|H]]; [|right; left|now left].
          + apply in_map_iff in H as (z & E & Hz). right. right.
            assert (Hz' : In z rest) by (apply filter_In in Hz; tauto).
            now rewrite <- (names_inj players z y Hnd (Hrest z Hz') Hy E).
          + exact (names_inj players y player Hnd Hy Hplayer H).
        - intros [H|[->|H]]; [right; now right|right; now left|left].
          now apply in_map. }
      assert (Htied : forall y, In y players ->
                (y = player \/ In y F) -> tied player y = true).
      { intros y _ [->|Hy]; [apply tied_refl|].
        apply filter_In in Hy. tauto. }
      assert (Hmember : forall y, In y players -> tied player y = true ->
                y = player \/ In y F).
      { intros y Hy Ht. destruct (Hcases y Hy) as [Hp|[->|Hr]].
        - exfalso. apply Hproc. apply (Hc y player); auto.
        - now left.
        - right. apply filter_In. auto. }
      assert (Hc' : names_closed nm tied players P').
      { intros x y Hx Hy Hxy Hin.
        apply (HF x Hx) in Hin. apply (HF y Hy).
        destruct Hin as [Hin|Hin]; [left; apply (Hc x y); auto|right].
        apply (Hmember y Hy).
        apply (tied_trans _ x); [now apply Htied|assumption]. }
      assert (Hpre' : forall y, In y (pre ++ [player]) -> nm y ∈ P').
      { intros y Hy. apply in_app_iff in Hy as [Hy|[<-|[]]].
        - apply HF; [rewrite Hs; apply in_app_iff; now left|].
          left. now apply Hpre.
        - apply HF; auto. }
      cbn [app length] in Hg.
      destruct (1 <? S (length F))%nat eqn:Elen.
      * apply (IH (pre ++ [player]) _ _ Hs' Hnd Hc' Hpre') in Hg
          as [Hg|Hg]; [|now right].
        apply in_app_iff in Hg as [Hg|[<-|[]]]; [now left|right].
        apply Nat.ltb_lt in Elen.
        repeat split.
        -- simpl. lia.
        -- intros x [<-|Hx]; [assumption|].
           apply Hrest. apply filter_In in Hx. tauto.
        -- intros x y Hx Hy.
           assert (Hx' : In x players).
           { destruct Hx as [<-|Hx]; [assumption|].
             apply Hrest. apply filter_In in Hx. tauto. }
           assert (Hy' : In y players).
           { destruct Hy as [<-|Hy]; [assumption|].
             apply Hrest. apply filter_In in Hy. tauto. }
           apply (tied_trans _ player).
           ++ apply tied_sym, Htied; auto. simpl in Hx. intuition.
           ++ apply Htied; auto. simpl in Hy. intuition.
        -- intros x y Hx Hy Hxy.
           assert (Hx' : In x players).
           { destruct Hx as [<-|Hx]; [assumption|].
             apply Hrest. apply filter_In in Hx. tauto. }
           assert (tied player y = true).
           { apply (tied_trans _ x); [|assumption].
             apply Htied; auto. simpl in Hx. intuition. }
           destruct (Hmember y Hy) as [->|Hin]; [assumption|now left|].
           now right.
      * apply (IH (pre ++ [player]) _ _ Hs' Hnd Hc' Hpre') in Hg. exact Hg.
Qed.
End GroupingFacts.

(** * [markTiedPlayers] *)

Lemma mark_group_spec group : forall h o,
  same_data (mark_group h group o) (h o) /\
  rank (mark_group h group o) = rank (h o) /\
  (In o group -> isTied (mark_group h group o) = Some true) /\
  (~ In o group -> mark_group h group o = h o).
Proof.
  unfold mark_group.
  induction group as [|p group IH]; intros h o; cbn [fold_left].
  - repeat split. intros [].
  - destruct (IH (set_isTied h p true) o) as (D & R & T & O).
    split; [eapply same_data_trans; [exact D|apply set_isTied_same_data]|].
    split; [now rewrite R, set_isTied_rank|].
    split.
    + intros Hin. destruct (in_dec Nat.eq_dec o group) as [Hg|Hg]; [auto|].
      destruct Hin as [->|Hin]; [|contradiction].
      rewrite (O Hg), set_isTied_isTied. now rewrite Nat.eqb_refl.
    + intros Hn. rewrite O by (intros H; apply Hn; now right).
      apply set_isTied_other. intros ->. apply Hn. now left.
Qed.

Lemma mark_groups_spec groups : forall h o,
  same_data (fold_left mark_group groups h o) (h o) /\
  rank (fold_left mark_group groups h o) = rank (h o) /\
  (In o (concat groups) ->
   isTied (fold_left mark_group groups h o) = Some true) /\
  (~ In o (concat groups) -> fold_left mark_group groups h o = h o).
Proof.
  induction groups as [|g groups IH]; intros h o; cbn [fold_left concat].
  - repeat split. intros [].
  - destruct (IH (mark_group h g) o) as (D & R & T & O).
    destruct (mark_group_spec g h o) as (D1 & R1 & T1 & O1).
    split; [eapply same_data_trans; eauto|].
    split; [congruence|].
    split.
    + intros Hin.
      destruct (in_dec Nat.eq_dec o (concat groups)) as [Hg|Hg]; [auto|].
      apply in_app_iff in Hin as [Hin|Hin]; [|contradiction].
      rewrite (O Hg). auto.
    + intros Hn. rewrite O, O1; auto; intros H; apply Hn, in_app_iff; auto.
Qed.

Lemma collect_subset nm tied player rest : forall group processed x,
  In x (fst (collect nm tied player rest group processed)) ->
  In x group \/ In x rest.
Proof.
  induction rest as [|other rest IH]; intros group processed x; cbn [collect].
  - auto.
  - destruct (bool_decide _).
    + intros H. apply IH in H. simpl. tauto.
    + destruct (tied player other); intros H; apply IH in H.
      * rewrite in_app_iff in H. simpl in *. tauto.
      * simpl. tauto.
Qed.

Lemma groups_from_subset nm tied rest : forall tieGroups processed x,
  In x (concat (groups_from nm tied rest tieGroups processed)) ->
  In x (concat tieGroups) \/ In x rest.
Proof.
  induction rest as [|player rest IH]; intros tieGroups processed x;
    cbn [groups_from].
  - auto.
  - destruct (bool_decide _).
    + intros H. apply IH in H. simpl. tauto.
    + destruct (collect _ _ _ _ _ _) as [group processed'] eqn:E.
      assert (Hg : forall z, In z group -> In z (player :: rest)).
      { intros z Hz. replace group with (fst (group, processed')) in Hz
          by reflexivity.
        rewrite <- E in Hz. apply collect_subset in Hz. simpl in *. tauto. }
      destruct (1 <? length group)%nat; intros H; apply IH in H.
      * rewrite concat_app, in_app_iff in H. cbn [concat] in H.
        rewrite app_nil_r in H. destruct H as [[H|H]|H]; auto.
        right. right. assumption.
      * simpl. tauto.
Qed.

(** * [sortPlayers] *)

Section Sorter.
Variable localeCompare : string -> string -> Z.

Local Abbreviation sorted_of players h :=
  (js_sort (fun a b => comparePlayers localeCompare (h a) (h b)) players).

Lemma sortPlayers_fst players h :
  fst (sortPlayers localeCompare players h) = sorted_of players h.
Proof. reflexivity. Qed.

Lemma sortPlayers_snd players h :
  snd (sortPlayers localeCompare players h)
  = markTiedPlayers (sorted_of players h)
                    (assignRanks (sorted_of players h) h).
Proof. reflexivity. Qed.

Lemma assignRanks_frame players h o :
  same_data (assignRanks players h o) (h o) /\
  isTied (assignRanks players h o) = isTied (h o) /\
  (~ In o players -> assignRanks players h o = h o).
Proof. rewrite assignRanks_ranks_from. apply ranks_from_frame. Qed.

Lemma markTiedPlayers_frame players h o :
  same_data (markTiedPlayers players h o) (h o) /\
  rank (markTiedPlayers players h o) = rank (h o) /\
  (~ In o players -> markTiedPlayers players h o = h o).
Proof.
  unfold markTiedPlayers.
  destruct (mark_groups_spec (findTieGroups h players) h o)
    as (D & R & _ & O).
  split; [assumption|]. split; [assumption|].
  intros Hn. apply O. intros Hin.
  rewrite findTieGroups_groups_from in Hin.
  apply groups_from_subset in Hin as [[]|Hin]. contradiction.
Qed.

Lemma sortPlayers_same_data players h o :
  same_data (snd (sortPlayers localeCompare players h) o) (h o).
Proof.
  rewrite sortPlayers_snd.
  eapply same_data_trans; [apply markTiedPlayers_frame|].
  apply assignRanks_frame.
Qed.

(** C8: [sortPlayers] returns a permutation of the references it was
    given, leaves [name], [eventScores], [eventSpending], [totalPoints]
    and [totalSpending] of every record as they were, and does not touch
    a record outside its input. *)
Theorem sortPlayers_permutation_and_frame :
  forall (players : list ref) (h : store),
    let out := sortPlayers localeCompare players h in
    Permutation (fst out) players /\
    (forall o,
        name (snd out o) = name (h o) /\
        eventScores (snd out o) = eventScores (h o) /\
        eventSpending (snd out o) = eventSpending (h o) /\
        totalPoints (snd out o) = totalPoints (h o) /\
        totalSpending (snd out o) = totalSpending (h o)) /\
    (forall o, ~ In o players -> snd out o = h o).
Proof.
  intros players h out. subst out. split; [|split].
  - rewrite sortPlayers_fst. apply js_sort_perm.
  - intros o. apply sortPlayers_same_data.
  - intros o Hn. rewrite sortPlayers_snd.
    assert (Hs : ~ In o (sorted_of players h)).
    { intros H. apply Hn. now apply js_sort_In in H. }
    destruct (markTiedPlayers_frame (sorted_of players h)
                (assignRanks (sorted_of players h) h) o) as (_ & _ & O).
    rewrite (O Hs). now apply assignRanks_frame.
Qed.
End Sorter.

(** * The order and the ranks of the result *)

Lemma Sorted_adjacent {A} (R : A -> A -> Prop) l :
  Sorted R l ->
  forall i x y,
    nth_error l i = Some x -> nth_error l (S i) = Some y -> R x y.
Proof.
  induction 1 as [|a l Hl IH Ha]; intros i x y Hx Hy.
  - destruct i; discriminate.
  - destruct i as [|i].
    + injection Hx as <-. destruct l as [|b l]; [discriminate|].
      injection Hy as <-. now inversion Ha.
    + eapply IH; eauto.
Qed.

Lemma StronglySorted_nth {A} (R : A -> A -> Prop) l :
  StronglySorted R l ->
  forall i j x y,
    (i < j)%nat -> nth_error l i = Some x -> nth_error l j = Some y -> R x y.
Proof.
  induction 1 as [|a l Hl IH Ha]; intros i j x y Hij Hx Hy.
  - destruct i; discriminate.
  - destruct j as [|j]; [lia|]. cbn [nth_error] in Hy.
    destruct i as [|i].
    + injection Hx as <-. rewrite Forall_forall in Ha.
      apply Ha. eapply nth_error_In; eauto.
    + eapply (IH i j); eauto. lia.
Qed.

Section SorterOrder.
Variable localeCompare : string -> string -> Z.

Hypothesis localeCompare_antisym :
  forall s t, Z.sgn (localeCompare t s) = - Z.sgn (localeCompare s t).

Local Abbreviation sorted_of players h :=
  (js_sort (fun a b => comparePlayers localeCompare (h a) (h b)) players).

Lemma sorted_of_Sorted (players : list ref) (h : store) :
  Sorted (fun x y => comparePlayers localeCompare (h x) (h y) <= 0)
         (sorted_of players h).
Proof.
  apply (js_sort_sorted
           (fun a b => comparePlayers localeCompare (h a) (h b))).
  intros a b. now apply comparePlayers_connex.
Qed.

(** C1: in the list [sortPlayers] returns, each player and the next one
    are in the order of the four levels: more points; or equal points and
    less spending; or both equal and [countbackCompare] negative; or the
    three levels tied and the first name not after the second. *)
Theorem sortPlayers_adjacent_order :
  forall (players : list ref) (h : store) (i : nat) (x y : ref),
    let out := sortPlayers localeCompare players h in
    nth_error (fst out) i = Some x ->
    nth_error (fst out) (S i) = Some y ->
    ranked_before localeCompare (snd out x) (snd out y).
Proof.
  intros players h i x y out Hx Hy. subst out.
  rewrite sortPlayers_fst in Hx, Hy.
  pose proof (Sorted_adjacent _ _ (sorted_of_Sorted players h) i x y Hx Hy)
    as Hle.
  apply comparePlayers_le.
  rewrite (comparePlayers_same_data localeCompare _ (h x) _ (h y));
    [exact Hle| |]; apply sortPlayers_same_data.
Qed.
End SorterOrder.

(** ** The first three levels *)

Lemma outranks_compare_levels a b :
  outranks a b = true <-> compare_levels a b < 0.
Proof.
  unfold outranks, compare_levels, comparePlayers.
  destruct (Z.ltb_spec (totalPoints b) (totalPoints a));
    destruct (Z.eqb_spec (totalPoints a) (totalPoints b));
    destruct (Z.ltb_spec (totalSpending a) (totalSpending b));
    destruct (Z.eqb_spec (totalSpending a) (totalSpending b));
    destruct (Z.ltb_spec (countbackCompare a b) 0);
    destruct (Z.eqb_spec (countbackCompare a b) 0);
    simpl; split; intros; try lia; try discriminate; try reflexivity.
Qed.

Lemma tied_compare_levels a b :
  arePlayersTied a b = true <-> compare_levels a b = 0.
Proof.
  unfold compare_levels. rewrite comparePlayers_zero. tauto.
Qed.

Lemma compare_levels_antisym a b :
  Z.sgn (compare_levels b a) = - Z.sgn (compare_levels a b).
Proof. apply comparePlayers_antisym. reflexivity. Qed.

Lemma compare_levels_trans a b c :
  compare_levels a b <= 0 -> compare_levels b c <= 0 ->
  compare_levels a c <= 0.
Proof.
  apply comparePlayers_trans. intros; lia.
Qed.

Lemma compare_levels_of_compare lc a b :
  comparePlayers lc a b <= 0 -> compare_levels a b <= 0.
Proof.
  unfold compare_levels. rewrite !comparePlayers_le. unfold ranked_before.
  intuition lia.
Qed.

Lemma filter_length_perm {A} (f : A -> bool) l1 l2 :
  Permutation l1 l2 -> length (filter f l1) = length (filter f l2).
Proof.
  induction 1 as [|x l1 l2 _ IH|x y l|l1 l2 l3 _ IH1 _ IH2]; simpl.
  - reflexivity.
  - destruct (f x); simpl; lia.
  - destruct (f x), (f y); reflexivity.
  - lia.
Qed.

Lemma filter_none {A} (f : A -> bool) l :
  Forall (fun x => f x = false) l -> filter f l = [].
Proof.
  induction 1 as [|x l Hx _ IH]; simpl; [reflexivity|]. now rewrite Hx.
Qed.

Lemma filter_all {A} (f : A -> bool) l :
  Forall (fun x => f x = true) l -> filter f l = l.
Proof.
  induction 1 as [|x l Hx _ IH]; simpl; [reflexivity|].
  now rewrite Hx, IH.
Qed.

Lemma filter_same {A} (f g : A -> bool) l :
  Forall (fun x => f x = g x) l -> filter f l = filter g l.
Proof.
  induction 1 as [|x l Hx _ IH]; simpl; [reflexivity|].
  now rewrite Hx, IH.
Qed.

Lemma firstn_snoc {A} (l : list A) k x :
  nth_error l k = Some x -> firstn (S k) l = firstn k l ++ [x].
Proof.
  revert k. induction l as [|a l IH]; intros [|k] H; try discriminate.
  - now injection H as <-.
  - cbn [firstn app]. f_equal. now apply IH.
Qed.

Lemma In_firstn_nth {A} (l : list A) k z :
  In z (firstn k l) -> exists i, (i < k)%nat /\ nth_error l i = Some z.
Proof.
  revert k. induction l as [|a l IH]; intros [|k] H; try contradiction.
  destruct H as [<-|H].
  - exists 0%nat. split; [lia|reflexivity].
  - destruct (IH k H) as (i & Hi & Hz). exists (S i). split; [lia|exact Hz].
Qed.

Lemma firstn_skipn_nth {A} (l : list A) k x :
  nth_error l k = Some x -> l = firstn k l ++ x :: skipn (S k) l.
Proof.
  revert k. induction l as [|a l IH]; intros [|k] H; try discriminate.
  - now injection H as <-.
  - cbn [firstn skipn app]. f_equal. now apply IH.
Qed.

Lemma In_skipn_nth {A} (l : list A) k z :
  In z (skipn k l) -> exists j, (k <= j)%nat /\ nth_error l j = Some z.
Proof.
  revert k. induction l as [|a l IH]; intros [|k] H; try contradiction.
  - apply In_nth_error in H as [j Hj]. exists j. split; [lia|exact Hj].
  - destruct (IH k H) as (j & Hj & Hz). exists (S j). split; [lia|exact Hz].
Qed.

Lemma compare_levels_le_lt a b c :
  compare_levels a b <= 0 -> compare_levels b c < 0 -> compare_levels a c < 0.
Proof.
  intros Hab Hbc.
  pose proof (compare_levels_trans a b c Hab ltac:(lia)) as Hac.
  destruct (Z.eq_dec (compare_levels a c) 0) as [E|]; [exfalso|lia].
  pose proof (compare_levels_antisym a c).
  pose proof (compare_levels_antisym b c).
  pose proof (compare_levels_trans c a b ltac:(lia) Hab). lia.
Qed.

Lemma compare_levels_lt_tied a b c :
  compare_levels b c = 0 ->
  (compare_levels a b < 0 <-> compare_levels a c < 0).
Proof.
  intros Hbc. pose proof (compare_levels_antisym b c).
  pose proof (compare_levels_antisym a b).
  pose proof (compare_levels_antisym a c).
  split; intros Hlt.
  - pose proof (compare_levels_trans a b c ltac:(lia) ltac:(lia)).
    destruct (Z.eq_dec (compare_levels a c) 0) as [E|]; [exfalso|lia].
    pose proof (compare_levels_trans b c a ltac:(lia) ltac:(lia)). lia.
  - pose proof (compare_levels_trans a c b ltac:(lia) ltac:(lia)).
    destruct (Z.eq_dec (compare_levels a b) 0) as [E|]; [exfalso|lia].
    pose proof (compare_levels_trans c b a ltac:(lia) ltac:(lia)). lia.
Qed.

Lemma rank_advances_differs a b : rank_advances a b = true <-> differs a b.
Proof.
  unfold rank_advances, differs.
  destruct (Z.eqb_spec (totalPoints a) (totalPoints b));
    destruct (Z.eqb_spec (totalSpending a) (totalSpending b));
    destruct (Z.eqb_spec (countbackCompare a b) 0);
    simpl; split; intros; try tauto; try discriminate.
Qed.

Lemma rank_advances_compare_levels a b :
  rank_advances a b = false <-> compare_levels a b = 0.
Proof.
  rewrite rank_advances_tied, <- tied_compare_levels.
  destruct (arePlayersTied a b); simpl; split; congruence.
Qed.

Section ClosedForm.
Variable h : store.
Variable s : list ref.
Hypothesis s_sorted :
  StronglySorted (fun x y => compare_levels (h x) (h y) <= 0) s.

Lemma before_le k x z :
  nth_error s k = Some x -> In z (firstn k s) ->
  compare_levels (h z) (h x) <= 0.
Proof.
  intros Hx Hz. apply In_firstn_nth in Hz as (i & Hi & Hz).
  exact (StronglySorted_nth _ _ s_sorted i k z x Hi Hz Hx).
Qed.

Lemma after_le k x z :
  nth_error s k = Some x -> In z (skipn (S k) s) ->
  compare_levels (h x) (h z) <= 0.
Proof.
  intros Hx Hz. apply In_skipn_nth in Hz as (j & Hj & Hz).
  exact (StronglySorted_nth _ _ s_sorted k j x z ltac:(lia) Hx Hz).
Qed.

(** Nobody at or after the position of [x] beats [x]. *)
Lemma better_count_firstn k x :
  nth_error s k = Some x ->
  better_count h s x = better_count h (firstn k s) x.
Proof.
  intros Hx. unfold better_count.
  rewrite (firstn_skipn_nth s k x Hx) at 1.
  rewrite filter_app, length_app.
  rewrite (filter_none _ (x :: skipn (S k) s)); [simpl; lia|].
  constructor.
  - destruct (outranks (h x) (h x)) eqn:E; [|reflexivity].
    apply outranks_compare_levels in E.
    pose proof (compare_levels_antisym (h x) (h x)). lia.
  - apply Forall_forall. intros z Hz.
    pose proof (after_le k x z Hx Hz) as Hle.
    destruct (outranks (h z) (h x)) eqn:E; [|reflexivity].
    apply outranks_compare_levels in E.
    pose proof (compare_levels_antisym (h x) (h z)). lia.
Qed.

Lemma better_count_first p :
  nth_error s 0 = Some p -> better_count h s p = 0.
Proof. intros Hp. now rewrite (better_count_firstn 0 p Hp). Qed.

(** A player that differs from the one in front is beaten by everybody in
    front. *)
Lemma better_count_differs k x y :
  nth_error s k = Some x -> nth_error s (S k) = Some y ->
  rank_advances (h x) (h y) = true ->
  better_count h s y = Z.of_nat (S k).
Proof.
  intros Hx Hy Hadv.
  rewrite (better_count_firstn (S k) y Hy). unfold better_count.
  pose proof (StronglySorted_nth _ _ s_sorted k (S k) x y
                ltac:(lia) Hx Hy) as Hle.
  cbv beta in Hle.
  assert (Hlt : compare_levels (h x) (h y) < 0).
  { destruct (Z.eq_dec (compare_levels (h x) (h y)) 0) as [E|]; [|lia].
    apply rank_advances_compare_levels in E. congruence. }
  rewrite filter_all.
  - rewrite length_firstn.
    assert (S k < length s)%nat by (apply nth_error_Some; congruence).
    lia.
  - apply Forall_forall. intros z Hz.
    apply outranks_compare_levels.
    rewrite (firstn_snoc s k x Hx) in Hz.
    apply in_app_iff in Hz as [Hz|[<-|[]]]; [|exact Hlt].
    eapply compare_levels_le_lt; [|exact Hlt].
    now apply (before_le k).
Qed.

(** A player tied with the one in front is beaten by the same players. *)
Lemma better_count_tied k x y :
  nth_error s k = Some x -> nth_error s (S k) = Some y ->
  rank_advances (h x) (h y) = false ->
  better_count h s y = better_count h s x.
Proof.
  intros Hx Hy Hadv. apply rank_advances_compare_levels in Hadv.
  unfold better_count. f_equal. f_equal.
  apply filter_same, Forall_forall. intros z _.
  pose proof (compare_levels_lt_tied (h z) _ _ Hadv) as Hiff.
  rewrite <- !outranks_compare_levels in Hiff.
  destruct (outranks (h z) (h x)), (outranks (h z) (h y));
    try reflexivity; intuition congruence.
Qed.

(** The rank [ranks_from] leaves on a player is one more than the number of
    players that beat it, wherever and however often it stands in the
    list. *)
Lemma ranks_from_better_count rest : forall pre currentRank h',
  s = pre ++ rest ->
  (forall o, same_data (h' o) (h o)) ->
  (forall p, nth_error rest 0 = Some p ->
             currentRank = 1 + better_count h s p) ->
  forall o, In o rest ->
    rank (ranks_from rest (length pre) currentRank h' o)
    = Some (1 + better_count h s o).
Proof.
  induction rest as [|player rest IH];
    intros pre currentRank h' Hs Hsd Hcur o Ho; [contradiction|].
  cbn [ranks_from].
  set (h1 := set_rank h' player currentRank).
  assert (Hsd1 : forall o', same_data (h1 o') (h o')).
  { intros o'. eapply same_data_trans; [apply set_rank_same_data|apply Hsd]. }
  assert (Hplayer : rank (h1 player) = Some (1 + better_count h s player)).
  { unfold h1. rewrite set_rank_rank. f_equal. now apply Hcur. }
  destruct rest as [|next rest'].
  - destruct Ho as [<-|[]]. exact Hplayer.
  - assert (Hx : nth_error s (length pre) = Some player).
    { rewrite Hs. apply nth_error_middle. }
    assert (Hy : nth_error s (S (length pre)) = Some next).
    { rewrite Hs, (app_cons_assoc pre player), <- (length_snoc pre player).
      apply nth_error_middle. }
    rewrite (rank_advances_same_data _ _ _ _ (Hsd1 player) (Hsd1 next)).
    set (r := if rank_advances (h player) (h next)
              then Z.of_nat (length pre) + 2 else currentRank).
    assert (Hr : r = 1 + better_count h s next).
    { unfold r. destruct (rank_advances (h player) (h next)) eqn:Eadv.
      - rewrite (better_count_differs _ _ _ Hx Hy Eadv). lia.
      - rewrite (better_count_tied _ _ _ Hx Hy Eadv). now apply Hcur. }
    assert (Hgoal :
      rank (ranks_from (next :: rest') (S (length pre)) r h1 o)
      = Some (1 + better_count h s o)).
    { destruct (in_dec Nat.eq_dec o (next :: rest')) as [Hin|Hnin].
      - rewrite <- (length_snoc pre player).
        apply IH; auto.
        + now rewrite <- app_cons_assoc.
        + intros p [= <-]. exact Hr.
      - destruct Ho as [<-|Ho]; [|contradiction].
        destruct (ranks_from_frame (next :: rest') (S (length pre)) r h1
                    player) as (_ & _ & Hother).
        now rewrite (Hother Hnin). }
    unfold r in Hgoal.
    now destruct (rank_advances (h player) (h next)).
Qed.
End ClosedForm.

Section SorterRanks.
Variable localeCompare : string -> string -> Z.

Hypothesis localeCompare_antisym :
  forall s t, Z.sgn (localeCompare t s) = - Z.sgn (localeCompare s t).
Hypothesis localeCompare_trans :
  forall s t u,
    localeCompare s t <= 0 -> localeCompare t u <= 0 ->
    localeCompare s u <= 0.

Local Abbreviation sorted_of players h :=
  (js_sort (fun a b => comparePlayers localeCompare (h a) (h b)) players).

Lemma sorted_of_levels (players : list ref) (h : store) :
  StronglySorted (fun x y => compare_levels (h x) (h y) <= 0)
                 (sorted_of players h).
Proof.
  eapply StronglySorted_weaken;
    [|apply (js_sort_strongly_sorted
               (fun a b => comparePlayers localeCompare (h a) (h b)))].
  - intros a b. apply compare_levels_of_compare.
  - intros a b. now apply comparePlayers_connex.
  - intros a b c. now apply comparePlayers_trans.
Qed.

Lemma sortPlayers_rank (players : list ref) (h : store) o :
  rank (snd (sortPlayers localeCompare players h) o)
  = rank (ranks_from (sorted_of players h) 0 1 h o).
Proof.
  rewrite sortPlayers_snd.
  destruct (markTiedPlayers_frame (sorted_of players h)
              (assignRanks (sorted_of players h) h) o) as (_ & -> & _).
  now rewrite assignRanks_ranks_from.
Qed.

(** C2: in the result of [sortPlayers] the first player of the sorted list
    has rank 1; a later player has its 1-based position as rank when it
    differs from the player in front in [totalPoints], [totalSpending] or
    under [countbackCompare], and that player's rank otherwise; and every
    rank is one more than the number of input players that beat the player
    on those three levels, in which names play no part. *)
Theorem sortPlayers_ranks :
  forall (players : list ref) (h : store),
    let out := sortPlayers localeCompare players h in
    (forall p, nth_error (fst out) 0 = Some p -> rank (snd out p) = Some 1) /\
    (forall i x y,
        nth_error (fst out) i = Some x ->
        nth_error (fst out) (S i) = Some y ->
        (differs (snd out x) (snd out y) ->
         rank (snd out y) = Some (Z.of_nat (S i) + 1)) /\
        (~ differs (snd out x) (snd out y) ->
         rank (snd out y) = rank (snd out x))) /\
    (forall x, In x players ->
               rank (snd out x) = Some (1 + better_count h players x)).
Proof.
  intros players h out. subst out.
  pose proof (sorted_of_levels players h) as Hsorted.
  assert (Hrank : forall o, In o (sorted_of players h) ->
            rank (snd (sortPlayers localeCompare players h) o)
            = Some (1 + better_count h (sorted_of players h) o)).
  { intros o Ho. rewrite sortPlayers_rank.
    apply (ranks_from_better_count h _ Hsorted _ []); auto.
    - intros o'. apply same_data_refl.
    - intros p Hp. now rewrite (better_count_first h _ Hsorted p Hp). }
  rewrite sortPlayers_fst. split; [|split].
  - intros p Hp. rewrite (Hrank p (nth_error_In _ _ Hp)).
    now rewrite (better_count_first h _ Hsorted p Hp).
  - intros i x y Hx Hy.
    rewrite (Hrank x (nth_error_In _ _ Hx)), (Hrank y (nth_error_In _ _ Hy)).
    rewrite <- (rank_advances_differs (snd _ x) (snd _ y)).
    rewrite (rank_advances_same_data _ (h x) _ (h y))
      by apply sortPlayers_same_data.
    destruct (rank_advances (h x) (h y)) eqn:Eadv; split; intros H;
      try congruence; try (exfalso; now apply H).
    + rewrite (better_count_differs h _ Hsorted i x y Hx Hy Eadv).
      f_equal. lia.
    + now rewrite (better_count_tied h _ i x y Hx Hy Eadv).
  - intros x Hx.
    rewrite (Hrank x) by now apply js_sort_In.
    unfold better_count. f_equal. f_equal. f_equal.
    apply filter_length_perm, js_sort_perm.
Qed.
End SorterRanks.

(** * Tie groups and tie flags *)

(** With distinct names, each group of [findTieGroups] is a whole tie
    class. *)
Lemma findTieGroups_whole (h : store) (players group : list ref) :
  NoDup (map (fun o => name (h o)) players) ->
  In group (findTieGroups h players) ->
  whole_tie_class (fun a b => arePlayersTied (h a) (h b)) players group.
Proof.
  intros Hnd Hg. rewrite findTieGroups_groups_from in Hg.
  apply (groups_from_whole (fun o => name (h o))
           (fun a b => arePlayersTied (h a) (h b))
           ltac:(intros a b; apply arePlayersTied_sym)
           ltac:(intros a b c; apply arePlayersTied_trans)
           ltac:(intros a; apply arePlayersTied_refl)
           players players [] [] ∅) in Hg.
  - destruct Hg as [[]|Hg]. exact Hg.
  - reflexivity.
  - assumption.
  - intros a b _ _ _ Hin. set_solver.
  - intros y [].
Qed.

(** C10: [countbackCompare] is [0] exactly when the two players have the
    same multiset of strictly positive scores; so being fully tied
    ([arePlayersTied]) is an equivalence relation, and with it the single
    pass of [findTieGroups] over players with distinct names returns whole
    tie classes. *)
Theorem countback_tie_is_equal_positive_multiset :
  (forall a b : Player,
      countbackCompare a b = 0 <->
      Permutation (positive_scores (eventScores a))
                  (positive_scores (eventScores b))) /\
  (forall a : Player, arePlayersTied a a = true) /\
  (forall a b : Player,
      arePlayersTied a b = true -> arePlayersTied b a = true) /\
  (forall a b c : Player,
      arePlayersTied a b = true -> arePlayersTied b c = true ->
      arePlayersTied a c = true) /\
  (forall (h : store) (players group : list ref),
      NoDup (map (fun o => name (h o)) players) ->
      In group (findTieGroups h players) ->
      whole_tie_class (fun a b => arePlayersTied (h a) (h b))
                      players group).
Proof.
  split; [|split; [|split; [|split]]].
  - intros a b. rewrite countbackCompare_zero_profile.
    apply profile_eq_iff_perm.
  - apply arePlayersTied_refl.
  - apply arePlayersTied_sym.
  - apply arePlayersTied_trans.
  - apply findTieGroups_whole.
Qed.

Section SorterTies.
Variable localeCompare : string -> string -> Z.

Local Abbreviation sorted_of players h :=
  (js_sort (fun a b => comparePlayers localeCompare (h a) (h b)) players).

(** Who is in a tie group of [findTieGroups], for players with distinct
    names. *)
Lemma findTieGroups_In (h : store) (players : list ref) x :
  NoDup (map (fun o => name (h o)) players) ->
  In x (concat (findTieGroups h players)) <->
  In x players /\
  exists y, In y players /\ y <> x /\ arePlayersTied (h x) (h y) = true.
Proof.
  intros Hnd. rewrite findTieGroups_groups_from.
  rewrite (groups_from_In (fun o => name (h o))
             (fun a b => arePlayersTied (h a) (h b))).
  - cbn [concat]. split.
    + intros [[]|(Hx & _ & Hy)]. auto.
    + intros (Hx & Hy). right. split; [assumption|].
      split; [set_solver|assumption].
  - intros a b. apply arePlayersTied_sym.
  - intros a b c. apply arePlayersTied_trans.
  - assumption.
  - intros a b _ _ _ Hin. set_solver.
Qed.

Lemma two_members (l : list ref) x :
  NoDup l -> In x l ->
  ((2 <= length l)%nat <-> exists y, In y l /\ y <> x).
Proof.
  intros Hnd Hx. split.
  - destruct l as [|a [|b l]]; simpl; try lia. intros _.
    inversion Hnd as [|? ? Hnotin _]; subst.
    destruct (Nat.eq_dec a x) as [->|Hne].
    + exists b. split; [auto|]. intros ->. apply Hnotin. now left.
    + exists a. auto.
  - intros (y & Hy & Hne).
    destruct l as [|a [|b l]]; simpl in *;
      [tauto|intuition congruence|lia].
Qed.

(** A player's tie class has another member exactly when another player is
    tied with it. *)
Lemma tie_class_two (h : store) (players : list ref) x :
  NoDup players -> In x players ->
  ((2 <= length (tie_class h players x))%nat <->
   exists y, In y players /\ y <> x /\
             arePlayersTied (h x) (h y) = true).
Proof.
  intros Hnd Hx. unfold tie_class.
  rewrite (two_members _ x).
  - split; intros (y & Hy & H).
    + apply filter_In in Hy as [Hy Ht]. eauto.
    + destruct H as [Hne Ht]. exists y. split; [|assumption].
      apply filter_In. auto.
  - now apply NoDup_filter.
  - apply filter_In. split; [assumption|apply arePlayersTied_refl].
Qed.

(** C3: for players with distinct names whose records do not carry a tie
    flag yet, [sortPlayers] leaves [isTied = true] on a player exactly when
    another player of the input has equal [totalPoints], equal
    [totalSpending] and [countbackCompare] 0 against it, that is, exactly
    when the player's tie class has two or more members. *)
Theorem sortPlayers_tie_flags :
  forall (players : list ref) (h : store),
    NoDup (map (fun o => name (h o)) players) ->
    (forall o, In o players -> isTied (h o) <> Some true) ->
    let out := sortPlayers localeCompare players h in
    forall x, In x players ->
      (isTied (snd out x) = Some true <->
       exists y, In y players /\ y <> x /\
                 totalPoints (h y) = totalPoints (h x) /\
                 totalSpending (h y) = totalSpending (h x) /\
                 countbackCompare (h x) (h y) = 0) /\
      (isTied (snd out x) = Some true <->
       (2 <= length (tie_class h players x))%nat).
Proof.
  intros players h Hnd Hfresh out x Hx. subst out.
  rewrite (tie_class_two h players x (NoDup_map_inv _ _ Hnd) Hx).
  assert (Hspec :
    (exists y, In y players /\ y <> x /\
               arePlayersTied (h x) (h y) = true) <->
    (exists y, In y players /\ y <> x /\
               totalPoints (h y) = totalPoints (h x) /\
               totalSpending (h y) = totalSpending (h x) /\
               countbackCompare (h x) (h y) = 0)).
  { split; intros (y & Hy & Hne & Ht); exists y;
      (split; [assumption|]); (split; [assumption|]).
    - apply arePlayersTied_spec in Ht. intuition congruence.
    - apply arePlayersTied_spec. intuition congruence. }
  rewrite <- Hspec.
  assert (Hflag :
    isTied (snd (sortPlayers localeCompare players h) x) = Some true <->
    exists y, In y players /\ y <> x /\
              arePlayersTied (h x) (h y) = true); [|tauto].
  rewrite sortPlayers_snd.
  set (s := sorted_of players h). set (h1 := assignRanks s h).
  assert (Hsd : forall o, same_data (h1 o) (h o))
    by (intros o; apply assignRanks_frame).
  assert (Hnd1 : NoDup (map (fun o => name (h1 o)) s)).
  { eapply Permutation_NoDup; [|exact Hnd].
    rewrite (map_ext (fun o => name (h1 o)) (fun o => name (h o)))
      by (intros o; apply Hsd).
    apply Permutation_map. symmetry. apply js_sort_perm. }
  assert (Hgroups :
    In x (concat (findTieGroups h1 s)) <->
    exists y, In y players /\ y <> x /\
              arePlayersTied (h x) (h y) = true).
  { rewrite (findTieGroups_In h1 s x Hnd1). unfold s.
    rewrite js_sort_In. split.
    - intros (_ & y & Hy & Hne & Ht). exists y.
      apply js_sort_In in Hy.
      rewrite (arePlayersTied_same_data _ (h x) _ (h y)) in Ht
        by apply Hsd.
      auto.
    - intros (y & Hy & Hne & Ht). split; [assumption|].
      exists y. rewrite js_sort_In. split; [assumption|].
      split; [assumption|].
      now rewrite (arePlayersTied_same_data _ (h x) _ (h y)) by apply Hsd. }
  rewrite <- Hgroups. unfold markTiedPlayers.
  destruct (mark_groups_spec (findTieGroups h1 s) h1 x)
    as (_ & _ & Hin & Hout).
  split; [|exact Hin].
  intros Hflag.
  destruct (in_dec Nat.eq_dec x (concat (findTieGroups h1 s)))
    as [H|H]; [assumption|exfalso].
  rewrite (Hout H) in Hflag.
  apply (Hfresh x Hx). rewrite <- Hflag. symmetry.
  apply assignRanks_frame.
Qed.

End SorterTies.

(** * The sorter on the small leaderboard *)

Lemma demo_names_NoDup :
  NoDup (map (fun o => name (demo_store o)) demo_players).
Proof.
  cbv [demo_players demo_store store_of map nth name newPlayer].
  repeat constructor; simpl; intuition discriminate.
Qed.

Lemma demo_fresh o :
  In o demo_players -> isTied (demo_store o) <> Some true.
Proof.
  unfold demo_players. simpl.
  intros [<-|[<-|[<-|[<-|[<-|[]]]]]]; discriminate.
Qed.

Example demo_result :
  let out := sortPlayers codepointCompare demo_players demo_store in
  map (fun o => (name (snd out o), rank (snd out o), isTied (snd out o)))
      (fst out)
  = [ ("C", Some 1, None); ("D", Some 2, None); ("E", Some 3, None);
      ("A", Some 4, Some true); ("B", Some 4, Some true) ]%string.
Proof. vm_compute. reflexivity. Qed.

Example countback_best_score_wins :
  countbackCompare (newPlayer "E" [50; 0; 0] [0; 0; 0])
                   (newPlayer "F" [25; 25; 0] [0; 0; 0]) = -1.
Proof. reflexivity. Qed.

Example countback_more_occurrences_win :
  countbackCompare (newPlayer "G" [20; 20; 5] [0; 0; 0])
                   (newPlayer "H" [20; 15; 10] [0; 0; 0]) = -1 /\
  detailedCountback (newPlayer "G" [20; 20; 5] [0; 0; 0])
                    (newPlayer "H" [20; 15; 10] [0; 0; 0]) = -1.
Proof. split; reflexivity. Qed.

Example single_player_result :
  let out :=
    sortPlayers codepointCompare [0%nat]
                (store_of [newPlayer "S" [7; 0] [3; 4]]) in
  fst out = [0%nat] /\ rank (snd out 0%nat) = Some 1 /\
  isTied (snd out 0%nat) = None.
Proof. repeat split. Qed.

(** A and B, at positions 4 and 5 of the result, are in order by name. *)
Lemma sortPlayers_adjacent_order_witness :
  nth_error (fst (sortPlayers codepointCompare demo_players demo_store)) 3
  = Some 1%nat /\
  nth_error (fst (sortPlayers codepointCompare demo_players demo_store)) 4
  = Some 0%nat /\
  ranked_before codepointCompare
    (snd (sortPlayers codepointCompare demo_players demo_store) 1%nat)
    (snd (sortPlayers codepointCompare demo_players demo_store) 0%nat).
Proof.
  split; [reflexivity|]. split; [reflexivity|].
  apply (sortPlayers_adjacent_order codepointCompare codepointCompare_antisym
           demo_players demo_store 3 1%nat 0%nat); reflexivity.
Defined.

(** B's rank is one more than the number of players that beat B. *)
Lemma sortPlayers_ranks_witness :
  rank (snd (sortPlayers codepointCompare demo_players demo_store) 0%nat)
  = Some (1 + better_count demo_store demo_players 0%nat).
Proof.
  apply (sortPlayers_ranks codepointCompare codepointCompare_antisym
           codepointCompare_trans demo_players demo_store).
  now left.
Defined.

(** B is flagged exactly because its tie class, A and B, has two members. *)
Lemma sortPlayers_tie_flags_witness :
  NoDup (map (fun o => name (demo_store o)) demo_players) /\
  (isTied (snd (sortPlayers codepointCompare demo_players demo_store) 0%nat)
   = Some true <->
   (2 <= length (tie_class demo_store demo_players 0%nat))%nat).
Proof.
  split; [exact demo_names_NoDup|].
  apply (sortPlayers_tie_flags codepointCompare demo_players demo_store
           demo_names_NoDup demo_fresh).
  now left.
Defined.

(** The one tie group of the small leaderboard, B and A, is a whole tie
    class. *)
Lemma countback_tie_is_equal_positive_multiset_witness :
  findTieGroups demo_store demo_players = [[0; 1]%nat] /\
  whole_tie_class
    (fun a b => arePlayersTied (demo_store a) (demo_store b))
    demo_players [0; 1]%nat.
Proof.
  split; [reflexivity|].
  apply (proj2 (proj2 (proj2 (proj2
           countback_tie_is_equal_positive_multiset)))
           demo_store demo_players [0; 1]%nat demo_names_NoDup).
  now left.
Defined.

(** With a comparator of names that knows canonical equivalence, the two
    spellings of one name compare as equal, and so do the two entries. *)
Lemma comparePlayers_strict_weak_order_witness :
  comparePlayers canonicalCompare jose_precomposed jose_decomposed = 0 <->
  totalPoints jose_precomposed = totalPoints jose_decomposed /\
  totalSpending jose_precomposed = totalSpending jose_decomposed /\
  countbackCompare jose_precomposed jose_decomposed = 0 /\
  canonicalCompare (name jose_precomposed) (name jose_decomposed) = 0.
Proof.
  apply (comparePlayers_strict_weak_order canonicalCompare
           canonicalCompare_antisym canonicalCompare_trans).
Defined.

(** C5, as stated, fails: the two entries have different names, yet they
    compare as equal under every [localeCompare] that returns 0 on the two
    spellings, as ECMA-262 asks of it; with the stand-in, neither ranks
    above the other. *)
Lemma equivalent_spellings_compare_equal :
  name jose_precomposed <> name jose_decomposed /\
  (forall localeCompare : string -> string -> Z,
      localeCompare (name jose_precomposed) (name jose_decomposed) = 0 ->
      comparePlayers localeCompare jose_precomposed jose_decomposed = 0) /\
  comparePlayers canonicalCompare jose_precomposed jose_decomposed = 0 /\
  ~ ranks_above canonicalCompare jose_precomposed jose_decomposed /\
  ~ ranks_above canonicalCompare jose_decomposed jose_precomposed.
Proof.
  split; [discriminate|]. split; [|split; [reflexivity|]].
  - intros localeCompare H. unfold comparePlayers.
    change (totalPoints jose_precomposed =? totalPoints jose_decomposed)
      with true.
    change (totalSpending jose_precomposed
            =? totalSpending jose_decomposed) with true.
    change (countbackCompare jose_precomposed jose_decomposed) with 0.
    exact H.
  - split; vm_compute; discriminate.
Qed.


(** * More about the countback comparator *)

(** X1: [countbackCompare] answers -1, 0 or 1, and swapping the players negates
    the answer. *)
Theorem countbackCompare_sign_symmetry :
  forall a b : Player,
    (countbackCompare a b = -1 \/ countbackCompare a b = 0 \/
     countbackCompare a b = 1) /\
    countbackCompare b a = - countbackCompare a b.
Proof.
  intros a b. split; [apply countbackCompare_range|].
  apply countbackCompare_antisym.
Qed.

(** X2: [countbackCompare] is transitive: if [a] is not behind [b] and [b] not
    behind [c], then [a] is not behind [c], and strictly ahead as soon as one
    of the two steps is strict. *)
Theorem countbackCompare_transitive :
  forall a b c : Player,
    countbackCompare a b <= 0 -> countbackCompare b c <= 0 ->
    countbackCompare a c <= 0 /\
    (countbackCompare a b < 0 \/ countbackCompare b c < 0 ->
     countbackCompare a c < 0).
Proof.
  intros a b c Hab Hbc.
  pose proof (countbackCompare_trans a b c Hab Hbc) as Hac.
  split; [assumption|]. intros Hstrict.
  destruct (Z.eq_dec (countbackCompare a c) 0) as [E|]; [exfalso|lia].
  pose proof (countbackCompare_antisym a b).
  pose proof (countbackCompare_antisym b c).
  pose proof (countbackCompare_zero_l a c b E).
  pose proof (countbackCompare_zero_r b a c E).
  lia.
Qed.

Lemma countbackCompare_transitive_witness :
  countbackCompare (demo_store 2%nat) (demo_store 1%nat) <= 0 /\
  countbackCompare (demo_store 1%nat) (demo_store 0%nat) <= 0 /\
  countbackCompare (demo_store 2%nat) (demo_store 0%nat) < 0.
Proof.
  assert (H1 : countbackCompare (demo_store 2%nat) (demo_store 1%nat) <= 0)
    by (vm_compute; discriminate).
  assert (H2 : countbackCompare (demo_store 1%nat) (demo_store 0%nat) <= 0)
    by (vm_compute; discriminate).
  split; [exact H1|]. split; [exact H2|].
  apply (countbackCompare_transitive _ _ _ H1 H2).
  left. vm_compute. reflexivity.
Defined.

Lemma positive_scores_perm s1 s2 :
  Permutation s1 s2 -> Permutation (positive_scores s1) (positive_scores s2).
Proof.
  unfold positive_scores.
  induction 1 as [|x l1 l2 _ IH|x y l|l1 l2 l3 _ IH1 _ IH2]; simpl.
  - reflexivity.
  - destruct (x >? 0); [now constructor|assumption].
  - destruct (x >? 0), (y >? 0); try reflexivity. apply perm_swap.
  - now transitivity (filter (fun s => s >? 0) l2).
Qed.

(** X3: the order of the events does not matter: permuting the [eventScores] of
    either player leaves [countbackCompare] unchanged. *)
Theorem countbackCompare_permutation :
  forall a a' b b' : Player,
    Permutation (eventScores a) (eventScores a') ->
    Permutation (eventScores b) (eventScores b') ->
    countbackCompare a b = countbackCompare a' b'.
Proof.
  intros a a' b b' Ha Hb. rewrite !countbackCompare_lexcmp.
  rewrite (proj2 (profile_eq_iff_perm (eventScores a) (eventScores a')))
    by now apply positive_scores_perm.
  rewrite (proj2 (profile_eq_iff_perm (eventScores b) (eventScores b')))
    by now apply positive_scores_perm.
  reflexivity.
Qed.

Lemma countbackCompare_permutation_witness :
  countbackCompare (demo_store 2%nat) (demo_store 0%nat)
  = countbackCompare (demo_store 2%nat) (demo_store 1%nat).
Proof.
  apply countbackCompare_permutation; [reflexivity|].
  change (Permutation [15; 10; 20; 8; 12] [10; 15; 8; 20; 12]).
  apply perm_trans with (10 :: 15 :: 20 :: 8 :: 12 :: nil);
    [apply perm_swap|].
  do 2 apply perm_skip. apply perm_swap.
Defined.

(** ** The frequency map *)

Lemma map_get_set_same k v m : map_get k (map_set k v m) = Some v.
Proof.
  induction m as [|[k' v'] m IH]; simpl.
  - now rewrite Z.eqb_refl.
  - destruct (k' =? k) eqn:E; simpl; rewrite E; [reflexivity|exact IH].
Qed.

Lemma map_get_set_other k k' v m :
  k <> k' -> map_get k' (map_set k v m) = map_get k' m.
Proof.
  intros Hne. induction m as [|[k0 v0] m IH]; simpl.
  - destruct (k =? k') eqn:E; [lia|reflexivity].
  - destruct (k0 =? k) eqn:E; simpl.
    + destruct (k0 =? k') eqn:E'; [lia|reflexivity].
    + now rewrite IH.
Qed.

Lemma or0_count c : 0 <= c -> or0 (if 0 <? c then Some c else None) = c.
Proof.
  intros Hc. destruct (0 <? c) eqn:E; simpl.
  - destruct (c =? 0) eqn:E0; lia.
  - lia.
Qed.

(** What the map holds after the loop has run over [scores], in terms of
    what it held before. *)
Lemma fold_count_score_get v scores : forall m,
  (forall c, map_get v m = Some c -> 1 <= c) ->
  map_get v (fold_left count_score scores m)
  = if (v >? 0) && (0 <? occurrences v scores)
    then Some (or0 (map_get v m) + occurrences v scores)
    else map_get v m.
Proof.
  induction scores as [|s scores IH]; intros m Hm.
  - cbn [fold_left]. unfold occurrences. simpl. now rewrite andb_false_r.
  - cbn [fold_left]. rewrite occurrences_cons.
    pose proof (occurrences_nonneg v scores) as Hocc.
    unfold count_score at 2. destruct (s >? 0) eqn:Es.
    + destruct (Z.eq_dec s v) as [->|Hne].
      * rewrite IH.
        2:{ intros c. rewrite map_get_set_same. intros [= <-].
            destruct (map_get v m) as [c0|] eqn:E0; simpl; [|lia].
            specialize (Hm c0 eq_refl). destruct (c0 =? 0); lia. }
        rewrite map_get_set_same, Z.eqb_refl, Es. cbn [andb].
        assert (Hnn : 0 <= or0 (map_get v m)).
        { destruct (map_get v m) as [c0|] eqn:E0; simpl; [|lia].
          specialize (Hm c0 eq_refl). destruct (c0 =? 0); lia. }
        replace (0 <? 1 + occurrences v scores) with true
          by (symmetry; apply Z.ltb_lt; lia).
        destruct (0 <? occurrences v scores) eqn:E1; f_equal.
        -- simpl. destruct (_ =? 0) eqn:E2; lia.
        -- assert (occurrences v scores = 0) as -> by lia. lia.
      * rewrite IH.
        2:{ intros c. rewrite map_get_set_other by assumption. apply Hm. }
        rewrite map_get_set_other by assumption.
        destruct (s =? v) eqn:E; [lia|]. reflexivity.
    + rewrite (IH m Hm). destruct (s =? v) eqn:E; [|reflexivity].
      assert (s = v) as -> by lia. rewrite Es. cbn [andb].
      reflexivity.
Qed.

(** X4: [getScoreFrequency] maps every strictly positive score of the player to
    the number of times it occurs in [eventScores], holds no other key, and
    holds each key once. *)
Theorem getScoreFrequency_lookup :
  forall (p : Player) (v : Z),
    map_get v (getScoreFrequency p)
    = (if (v >? 0) && (0 <? occurrences v (eventScores p))
       then Some (occurrences v (eventScores p))
       else None) /\
    NoDup (map fst (getScoreFrequency p)).
Proof.
  intros p v. split; [|apply getScoreFrequency_facts].
  unfold getScoreFrequency. rewrite fold_count_score_get by discriminate.
  reflexivity.
Qed.

(** X21: on scores that are never negative the profile is what the comment
    of [countbackCompare] says it is: exactly the non-zero entries of
    [eventScores], each as often as it occurs. *)
Theorem profile_keeps_nonzero_scores :
  forall scores : list Z,
    (forall s, In s scores -> 0 <= s) ->
    (forall s, In s (profile scores) <-> In s scores /\ s <> 0) /\
    (forall s, s <> 0 ->
               occurrences s (profile scores) = occurrences s scores) /\
    occurrences 0 (profile scores) = 0.
Proof.
  intros scores Hpos.
  destruct (profile_keeps_positive_scores scores) as (Hin & Hocc & Hnone).
  split; [|split].
  - intros s. rewrite Hin. split; intros [H1 H2]; split; auto; [lia|].
    specialize (Hpos s H1). lia.
  - intros s Hs. destruct (Z_lt_le_dec 0 s) as [Hlt|Hle]; [now apply Hocc|].
    rewrite (Hnone s Hle). symmetry. apply occurrences_absent.
    intros H. specialize (Hpos s H). lia.
  - apply Hnone. lia.
Qed.

(** * More about the sorter *)

Lemma collect_ext nm nm' tied tied' player rest :
  (forall o, nm o = nm' o) -> (forall a b, tied a b = tied' a b) ->
  forall group processed,
    collect nm tied player rest group processed
    = collect nm' tied' player rest group processed.
Proof.
  intros Hn Ht. induction rest as [|other rest IH]; intros group processed;
    cbn [collect]; [reflexivity|].
  rewrite (Hn other), (Ht player other), !IH. reflexivity.
Qed.

Lemma groups_from_ext nm nm' tied tied' rest :
  (forall o, nm o = nm' o) -> (forall a b, tied a b = tied' a b) ->
  forall tieGroups processed,
    groups_from nm tied rest tieGroups processed
    = groups_from nm' tied' rest tieGroups processed.
Proof.
  intros Hn Ht. induction rest as [|player rest IH];
    intros tieGroups processed; cbn [groups_from]; [reflexivity|].
  rewrite (Hn player), (collect_ext nm nm' tied tied' player rest Hn Ht).
  destruct (bool_decide _); [apply IH|].
  destruct (collect _ _ _ _ _ _) as [group processed'].
  destruct (1 <? length group)%nat; apply IH.
Qed.

(** [findTieGroups] reads names, totals and scores only. *)
Lemma findTieGroups_same_data (h h' : store) players :
  (forall o, same_data (h' o) (h o)) ->
  findTieGroups h' players = findTieGroups h players.
Proof.
  intros Hsd. rewrite !findTieGroups_groups_from.
  apply groups_from_ext.
  - intros o. apply Hsd.
  - intros a b. now apply arePlayersTied_same_data.
Qed.

Lemma player_eq (p q : Player) :
  same_data p q -> rank p = rank q -> isTied p = isTied q -> p = q.
Proof.
  destruct p, q. unfold same_data. simpl.
  intros (-> & -> & -> & -> & ->) -> ->. reflexivity.
Qed.

Lemma outranks_same_data a a' b b' :
  same_data a a' -> same_data b b' -> outranks a b = outranks a' b'.
Proof.
  intros Ha Hb. unfold outranks.
  rewrite (countbackCompare_same_data a a' b b' Ha Hb).
  destruct Ha as (_ & _ & _ & -> & ->), Hb as (_ & _ & _ & -> & ->).
  reflexivity.
Qed.

Lemma better_count_same_data (h h' : store) l x :
  (forall o, same_data (h' o) (h o)) ->
  better_count h' l x = better_count h l x.
Proof.
  intros Hsd. unfold better_count. f_equal. f_equal.
  apply filter_same, Forall_forall. intros z _.
  now apply outranks_same_data.
Qed.

Lemma js_sort_ext {A} (cmp cmp' : A -> A -> Z) l :
  (forall a b, cmp a b = cmp' a b) -> js_sort cmp l = js_sort cmp' l.
Proof.
  intros Hc. induction l as [|x l IH]; simpl; [reflexivity|].
  rewrite IH. generalize (js_sort cmp' l). intros s.
  induction s as [|y s IHs]; simpl; [reflexivity|].
  now rewrite Hc, IHs.
Qed.

(** Sorting a sorted list changes nothing. *)
Lemma js_sort_sorted_id {A} (cmp : A -> A -> Z) l :
  Sorted (in_order cmp) l -> js_sort cmp l = l.
Proof.
  induction 1 as [|x l Hl IH Hx]; simpl; [reflexivity|].
  rewrite IH. destruct Hx as [|y l' Hxy]; simpl; [reflexivity|].
  unfold in_order in Hxy.
  destruct (cmp x y <=? 0) eqn:E; [reflexivity|lia].
Qed.

(** Two sorted arrangements of the same elements coincide when the order
    tells distinct elements apart. *)
Lemma sorted_perm_unique {A} (R : A -> A -> Prop) l1 : forall l2,
  StronglySorted R l1 -> StronglySorted R l2 -> Permutation l1 l2 ->
  (forall x y, In x l1 -> In y l1 -> R x y -> R y x -> x = y) ->
  l1 = l2.
Proof.
  induction l1 as [|x l1 IH]; intros l2 H1 H2 Hperm Hanti.
  - apply Permutation_nil in Hperm. now subst.
  - destruct l2 as [|y l2].
    + symmetry in Hperm. now apply Permutation_nil in Hperm.
    + inversion H1 as [|? ? H1' Hx]; inversion H2 as [|? ? H2' Hy]; subst.
      rewrite Forall_forall in Hx, Hy.
      assert (x = y).
      { assert (Hin1 : In x (y :: l2))
          by (eapply Permutation_in; [exact Hperm|now left]).
        assert (Hin2 : In y (x :: l1))
          by (eapply Permutation_in; [symmetry; exact Hperm|now left]).
        destruct Hin1 as [->|Hin1]; [reflexivity|].
        destruct Hin2 as [->|Hin2]; [reflexivity|].
        apply Hanti; [now left|now right|auto|auto]. }
      subst y. f_equal. apply IH; auto.
      * now apply Permutation_cons_inv in Hperm.
      * intros a b Ha Hb. apply Hanti; now right.
Qed.

Lemma filter_length_le {A} (f g : A -> bool) l :
  (forall z, In z l -> f z = true -> g z = true) ->
  (length (filter f l) <= length (filter g l))%nat.
Proof.
  induction l as [|a l IH]; intros Hfg; simpl; [lia|].
  assert (IH' : (length (filter f l) <= length (filter g l))%nat).
  { apply IH. intros z Hz. apply Hfg. now right. }
  destruct (f a) eqn:Ef.
  - rewrite (Hfg a (or_introl eq_refl) Ef). simpl. lia.
  - destruct (g a); simpl; lia.
Qed.

Lemma filter_length_lt {A} (f g : A -> bool) l x :
  (forall z, In z l -> f z = true -> g z = true) ->
  In x l -> f x = false -> g x = true ->
  (length (filter f l) < length (filter g l))%nat.
Proof.
  induction l as [|a l IH]; intros Hfg Hx Hf Hg; [contradiction|].
  simpl.
  assert (Hle : (length (filter f l) <= length (filter g l))%nat).
  { apply filter_length_le. intros z Hz. apply Hfg. now right. }
  destruct Hx as [->|Hx].
  - rewrite Hf, Hg. simpl. lia.
  - assert (IH' : (length (filter f l) < length (filter g l))%nat).
    { apply IH; auto. intros z Hz. apply Hfg. now right. }
    destruct (f a) eqn:Ef.
    + rewrite (Hfg a (or_introl eq_refl) Ef). simpl. lia.
    + destruct (g a); simpl; lia.
Qed.

Section SorterMore.
Variable localeCompare : string -> string -> Z.

Local Abbreviation sorted_of players h :=
  (js_sort (fun a b => comparePlayers localeCompare (h a) (h b)) players).

(** The flags after [sortPlayers], by membership in the tie groups. *)
Lemma sortPlayers_isTied (players : list ref) (h : store) o :
  (In o (concat (findTieGroups h (sorted_of players h))) ->
   isTied (snd (sortPlayers localeCompare players h) o) = Some true) /\
  (~ In o (concat (findTieGroups h (sorted_of players h))) ->
   isTied (snd (sortPlayers localeCompare players h) o) = isTied (h o)).
Proof.
  rewrite sortPlayers_snd. unfold markTiedPlayers.
  set (s := sorted_of players h). set (h1 := assignRanks s h).
  assert (Hsd : forall o', same_data (h1 o') (h o'))
    by (intros o'; apply assignRanks_frame).
  rewrite (findTieGroups_same_data h h1 s Hsd).
  destruct (mark_groups_spec (findTieGroups h s) h1 o) as (_ & _ & Hin & Hout).
  split; [exact Hin|].
  intros Hn. rewrite (Hout Hn). apply assignRanks_frame.
Qed.

(** X10: [sortPlayers] never clears a tie flag: a record comes back flagged, or
    with the flag it had; so a record that was flagged before the call is
    flagged after it. *)
Theorem sortPlayers_keeps_flags :
  forall (players : list ref) (h : store) (o : ref),
    let out := sortPlayers localeCompare players h in
    (isTied (snd out o) = Some true \/ isTied (snd out o) = isTied (h o)) /\
    (isTied (h o) = Some true -> isTied (snd out o) = Some true).
Proof.
  intros players h o out. subst out.
  destruct (sortPlayers_isTied players h o) as (Hin & Hout).
  destruct (in_dec Nat.eq_dec o
              (concat (findTieGroups h (sorted_of players h)))) as [H|H].
  - split; [left|intros _]; auto.
  - rewrite (Hout H). split; [now right|auto].
Qed.

Lemma sortPlayers_frame_out (players : list ref) (h : store) o :
  ~ In o players -> snd (sortPlayers localeCompare players h) o = h o.
Proof.
  intros Hn. rewrite sortPlayers_snd.
  assert (Hs : ~ In o (sorted_of players h)).
  { intros H. apply Hn. now apply js_sort_In in H. }
  destruct (markTiedPlayers_frame (sorted_of players h)
              (assignRanks (sorted_of players h) h) o) as (_ & _ & O).
  rewrite (O Hs). now apply assignRanks_frame.
Qed.

Hypothesis localeCompare_antisym :
  forall s t, Z.sgn (localeCompare t s) = - Z.sgn (localeCompare s t).
Hypothesis localeCompare_trans :
  forall s t u,
    localeCompare s t <= 0 -> localeCompare t u <= 0 ->
    localeCompare s u <= 0.

Lemma sorted_of_strongly (players : list ref) (h : store) :
  StronglySorted (fun x y => comparePlayers localeCompare (h x) (h y) <= 0)
                 (sorted_of players h).
Proof.
  apply (js_sort_strongly_sorted
           (fun a b => comparePlayers localeCompare (h a) (h b))).
  - intros a b. now apply comparePlayers_connex.
  - intros a b c. now apply comparePlayers_trans.
Qed.

Lemma sortPlayers_rank_closed (players : list ref) (h : store) x :
  In x players ->
  rank (snd (sortPlayers localeCompare players h) x)
  = Some (1 + better_count h players x).
Proof.
  intros Hx.
  pose proof (sorted_of_levels localeCompare localeCompare_antisym
                localeCompare_trans players h) as Hsorted.
  rewrite sortPlayers_rank.
  rewrite (ranks_from_better_count h _ Hsorted _ [] 1 h); auto.
  - unfold better_count. f_equal. f_equal. f_equal.
    apply filter_length_perm, js_sort_perm.
  - intros o. apply same_data_refl.
  - intros p Hp. now rewrite (better_count_first h _ Hsorted p Hp).
  - now apply js_sort_In.
Qed.

(** X7: the whole result is in order, not only neighbours: any player and any
    later one satisfy the four-level order. *)
Theorem sortPlayers_sorted_pairs :
  forall (players : list ref) (h : store) (i j : nat) (x y : ref),
    let out := sortPlayers localeCompare players h in
    (i < j)%nat ->
    nth_error (fst out) i = Some x ->
    nth_error (fst out) j = Some y ->
    ranked_before localeCompare (snd out x) (snd out y).
Proof.
  intros players h i j x y out Hij Hx Hy. subst out.
  rewrite sortPlayers_fst in Hx, Hy.
  pose proof (StronglySorted_nth _ _ (sorted_of_strongly players h)
                i j x y Hij Hx Hy) as Hle.
  cbv beta in Hle. apply comparePlayers_le.
  rewrite (comparePlayers_same_data localeCompare _ (h x) _ (h y));
    [exact Hle| |]; apply sortPlayers_same_data.
Qed.

Lemma better_count_le (h : store) l x y :
  compare_levels (h x) (h y) <= 0 ->
  better_count h l x <= better_count h l y.
Proof.
  intros Hle. unfold better_count. apply inj_le, filter_length_le.
  intros z _ Hz. apply outranks_compare_levels.
  apply outranks_compare_levels in Hz.
  pose proof (compare_levels_antisym (h z) (h x)).
  pose proof (compare_levels_antisym (h z) (h y)).
  pose proof (compare_levels_antisym (h x) (h y)).
  destruct (Z.eq_dec (compare_levels (h x) (h y)) 0) as [E|Hne].
  - now apply (compare_levels_lt_tied (h z) _ _ E).
  - pose proof (compare_levels_le_lt (h y) (h x) (h z)).
    pose proof (compare_levels_trans (h z) (h x) (h y) ltac:(lia) Hle).
    destruct (Z.eq_dec (compare_levels (h z) (h y)) 0) as [E'|]; [|lia].
    pose proof (compare_levels_trans (h y) (h z) (h x) ltac:(lia) ltac:(lia)).
    lia.
Qed.

Lemma better_count_lt (h : store) l x y :
  In x l -> compare_levels (h x) (h y) < 0 ->
  better_count h l x < better_count h l y.
Proof.
  intros Hx Hlt. unfold better_count.
  apply inj_lt, (filter_length_lt _ _ l x); auto.
  - intros z _ Hz. apply outranks_compare_levels.
    apply outranks_compare_levels in Hz.
    eapply compare_levels_le_lt; [|exact Hlt]. lia.
  - destruct (outranks (h x) (h x)) eqn:E; [|reflexivity].
    apply outranks_compare_levels in E.
    pose proof (compare_levels_antisym (h x) (h x)). lia.
  - now apply outranks_compare_levels.
Qed.

(** X8: ranks start at 1, never exceed the 1-based position, and never decrease
    along the sorted list. *)
Theorem sortPlayers_rank_bounds :
  forall (players : list ref) (h : store) (i j : nat) (x y : ref),
    let out := sortPlayers localeCompare players h in
    (i <= j)%nat ->
    nth_error (fst out) i = Some x ->
    nth_error (fst out) j = Some y ->
    exists rx ry,
      rank (snd out x) = Some rx /\ rank (snd out y) = Some ry /\
      1 <= rx /\ rx <= ry /\ ry <= Z.of_nat j + 1.
Proof.
  intros players h i j x y out Hij Hx Hy. subst out.
  rewrite sortPlayers_fst in Hx, Hy.
  assert (Hxin : In x players).
  { apply nth_error_In in Hx. now apply js_sort_In in Hx. }
  assert (Hyin : In y players).
  { apply nth_error_In in Hy. now apply js_sort_In in Hy. }
  exists (1 + better_count h players x), (1 + better_count h players y).
  rewrite !sortPlayers_rank_closed by assumption.
  split; [reflexivity|]. split; [reflexivity|].
  pose proof (sorted_of_levels localeCompare localeCompare_antisym
                localeCompare_trans players h) as Hsorted.
  split; [unfold better_count; lia|]. split.
  - apply Z.add_le_mono_l, better_count_le.
    destruct (Nat.eq_dec i j) as [->|Hne].
    + assert (x = y) as -> by congruence.
      pose proof (compare_levels_antisym (h y) (h y)). lia.
    + exact (StronglySorted_nth _ _ Hsorted i j x y ltac:(lia) Hx Hy).
  - assert (Hperm : better_count h players y
                    = better_count h (sorted_of players h) y).
    { unfold better_count. f_equal. symmetry.
      apply filter_length_perm, js_sort_perm. }
    rewrite Hperm, (better_count_firstn h _ Hsorted j y Hy).
    unfold better_count.
    pose proof (filter_length_le (fun z => outranks (h z) (h y))
                  (fun _ => true) (firstn j (sorted_of players h))
                  ltac:(auto)) as Hle.
    rewrite (filter_all (fun _ => true)) in Hle
      by (apply Forall_forall; auto).
    rewrite length_firstn in Hle. lia.
Qed.

(** X9: ranks follow the first three levels exactly: two players of the input
    get the same rank when and only when they are fully tied, and a player
    gets the smaller rank when and only when it beats the other on points,
    spending or countback. *)
Theorem sortPlayers_rank_order :
  forall (players : list ref) (h : store) (x y : ref),
    let out := sortPlayers localeCompare players h in
    In x players -> In y players ->
    exists rx ry,
      rank (snd out x) = Some rx /\ rank (snd out y) = Some ry /\
      (rx = ry <-> arePlayersTied (h x) (h y) = true) /\
      (rx < ry <-> outranks (h x) (h y) = true).
Proof.
  intros players h x y out Hx Hy. subst out.
  exists (1 + better_count h players x), (1 + better_count h players y).
  rewrite !sortPlayers_rank_closed by assumption.
  split; [reflexivity|]. split; [reflexivity|].
  rewrite tied_compare_levels, outranks_compare_levels.
  pose proof (compare_levels_antisym (h x) (h y)) as Hanti.
  destruct (Z.lt_trichotomy (compare_levels (h x) (h y)) 0) as [Hlt|[E|Hgt]].
  - pose proof (better_count_lt h players x y Hx Hlt). lia.
  - pose proof (better_count_le h players x y ltac:(lia)).
    pose proof (better_count_le h players y x ltac:(lia)). lia.
  - pose proof (better_count_lt h players y x Hy ltac:(lia)). lia.
Qed.
(** X11: running [sortPlayers] on its own result changes nothing: the list comes
    back in the same order and every record keeps its rank and its flag. *)
Theorem sortPlayers_idempotent :
  forall (players : list ref) (h : store),
    let out := sortPlayers localeCompare players h in
    let again := sortPlayers localeCompare (fst out) (snd out) in
    fst again = fst out /\ forall o, snd again o = snd out o.
Proof.
  intros players h out again. subst again out.
  set (s := sorted_of players h).
  set (h' := snd (sortPlayers localeCompare players h)).
  assert (Hsd : forall o, same_data (h' o) (h o))
    by (intros o; apply sortPlayers_same_data).
  assert (Hfst : sorted_of s h' = s).
  { rewrite (js_sort_ext _
               (fun a b => comparePlayers localeCompare (h a) (h b))).
    - apply js_sort_sorted_id.
      apply (sorted_of_Sorted localeCompare localeCompare_antisym).
    - intros a b. now apply comparePlayers_same_data. }
  change (fst (sortPlayers localeCompare players h)) with s.
  split; [rewrite sortPlayers_fst; exact Hfst|].
  intros o.
  destruct (in_dec Nat.eq_dec o s) as [Hin|Hnin];
    [|now apply sortPlayers_frame_out].
  apply player_eq.
  - apply sortPlayers_same_data.
  - rewrite (sortPlayers_rank_closed s h' o Hin).
    rewrite (better_count_same_data h h' s o Hsd).
    unfold h'. rewrite (sortPlayers_rank_closed players h o)
      by now apply js_sort_In in Hin.
    unfold better_count. f_equal. f_equal. f_equal.
    apply filter_length_perm, js_sort_perm.
  - destruct (sortPlayers_isTied s h' o) as (Hin2 & Hout2).
    rewrite Hfst, (findTieGroups_same_data h h' s Hsd) in Hin2, Hout2.
    destruct (sortPlayers_isTied players h o) as (Hin1 & _).
    fold s in Hin1. fold h' in Hin1.
    destruct (in_dec Nat.eq_dec o (concat (findTieGroups h s))) as [H|H].
    + now rewrite (Hin2 H), (Hin1 H).
    + exact (Hout2 H).
Qed.

(** X12: when the comparator tells any two different players of the input
    apart, the result does not depend on the order in which the players
    are handed in. *)
Theorem sortPlayers_order_independent :
  forall (players players' : list ref) (h : store),
    (forall x y, In x players -> In y players -> x <> y ->
                 comparePlayers localeCompare (h x) (h y) <> 0) ->
    Permutation players players' ->
    sortPlayers localeCompare players h
    = sortPlayers localeCompare players' h.
Proof.
  intros players players' h Hapart Hperm.
  assert (Hs : sorted_of players h = sorted_of players' h).
  { apply (sorted_perm_unique
             (fun x y => comparePlayers localeCompare (h x) (h y) <= 0)).
    - apply sorted_of_strongly.
    - apply sorted_of_strongly.
    - rewrite !js_sort_perm. exact Hperm.
    - intros x y Hx Hy Hxy Hyx.
      apply js_sort_In in Hx. apply js_sort_In in Hy.
      pose proof (comparePlayers_antisym localeCompare
                    localeCompare_antisym (h x) (h y)) as Hanti.
      assert (E : comparePlayers localeCompare (h x) (h y) = 0) by lia.
      destruct (Nat.eq_dec x y) as [|Hne]; [assumption|].
      now destruct (Hapart x y Hx Hy Hne). }
  unfold sortPlayers. cbv zeta. now rewrite Hs.
Qed.
End SorterMore.
(** * Inputs that break the contract *)

Section SorterContract.
Variable localeCompare : string -> string -> Z.

Hypothesis localeCompare_antisym :
  forall s t, Z.sgn (localeCompare t s) = - Z.sgn (localeCompare s t).
Hypothesis localeCompare_trans :
  forall s t u,
    localeCompare s t <= 0 -> localeCompare t u <= 0 ->
    localeCompare s u <= 0.


End SorterContract.


(** * More about [findTieGroups] *)

Section GroupingMore.
Variable nm : ref -> string.
Variable tied : ref -> ref -> bool.

(** What the inner loop adds to the group: players of [rest] tied with
    [player], with names that were not processed and are all different. *)
Lemma collect_added player rest : forall group processed,
  exists added,
    collect nm tied player rest group processed
    = (group ++ added, list_to_set (map nm added) ∪ processed) /\
    NoDup (map nm added) /\
    forall x, In x added ->
              In x rest /\ tied player x = true /\ nm x ∉ processed.
Proof.
  induction rest as [|other rest IH]; intros group processed.
  - exists []. simpl. rewrite app_nil_r.
    split; [f_equal; set_solver|]. split; [constructor|intros x []].
  - cbn [collect]. case_bool_decide as Hproc.
    + destruct (IH group processed) as (added & E & Hnd & Hadd).
      exists added. split; [exact E|]. split; [exact Hnd|].
      intros x Hx. destruct (Hadd x Hx) as (H1 & H2 & H3).
      split; [now right|auto].
    + destruct (tied player other) eqn:Et.
      * destruct (IH (group ++ [other]) ({[nm other]} ∪ processed))
          as (added & E & Hnd & Hadd).
        exists (other :: added). rewrite E, <- app_assoc. cbn [app map].
        split; [f_equal; set_solver|]. split.
        -- constructor; [|exact Hnd].
           intros Hin. apply in_map_iff in Hin as (x & Ex & Hx).
           destruct (Hadd x Hx) as (_ & _ & H3). set_solver.
        -- intros x [<-|Hx]; [split; [now left|auto]|].
           destruct (Hadd x Hx) as (H1 & H2 & H3).
           split; [now right|]. split; [assumption|]. set_solver.
      * destruct (IH group processed) as (added & E & Hnd & Hadd).
        exists added. split; [exact E|]. split; [exact Hnd|].
        intros x Hx. destruct (Hadd x Hx) as (H1 & H2 & H3).
        split; [now right|auto].
Qed.

(** The outer loop keeps its groups well formed and never lets a name into
    two groups, or twice into one. *)
Lemma groups_from_invariant rest : forall tieGroups processed,
  Forall (led_group tied) tieGroups ->
  NoDup (map nm (concat tieGroups)) ->
  (forall x, In x (concat tieGroups) -> nm x ∈ processed) ->
  Forall (led_group tied) (groups_from nm tied rest tieGroups processed) /\
  NoDup (map nm (concat (groups_from nm tied rest tieGroups processed))).
Proof.
  induction rest as [|player rest IH]; intros tieGroups processed Hwf Hnd Hp.
  - simpl. auto.
  - cbn [groups_from]. case_bool_decide as Hproc; [now apply IH|].
    destruct (collect_added player rest [player] ({[nm player]} ∪ processed))
      as (added & E & Hnda & Hadd).
    rewrite E. cbn [app length].
    set (P' := list_to_set (map nm added) ∪ ({[nm player]} ∪ processed)).
    assert (HP' : forall x, In x (concat tieGroups) -> nm x ∈ P').
    { intros x Hx. specialize (Hp x Hx). set_solver. }
    destruct (1 <? S (length added))%nat eqn:Elen; [|now apply IH].
    apply Nat.ltb_lt in Elen.
    assert (Hne : added <> []) by (intros ->; simpl in Elen; lia).
    + apply IH.
      * apply Forall_app. split; [assumption|]. constructor; [|constructor].
        exists player, added. split; [reflexivity|]. split; [assumption|].
        intros x Hx. now apply Hadd.
      * rewrite concat_app, map_app. cbn [concat]. rewrite app_nil_r.
        cbn [map]. apply NoDup_app; [assumption| |].
        -- constructor; [|assumption].
           intros Hin. apply in_map_iff in Hin as (x & Ex & Hx).
           destruct (Hadd x Hx) as (_ & _ & H3). set_solver.
        -- intros n Hn1 Hn2.
           apply in_map_iff in Hn1 as (x & <- & Hx).
           specialize (Hp x Hx).
           destruct Hn2 as [Hn2|Hn2]; [congruence|].
           apply in_map_iff in Hn2 as (y & Ey & Hy).
           destruct (Hadd y Hy) as (_ & _ & H3).
           apply H3. rewrite Ey. now apply elem_of_union_r.
      * intros x Hx. rewrite concat_app in Hx. cbn [concat] in Hx.
        rewrite app_nil_r in Hx. apply in_app_iff in Hx as [Hx|Hx]; [auto|].
        unfold P'. destruct Hx as [<-|Hx]; [set_solver|].
        apply elem_of_union_l, elem_of_list_to_set, list_elem_of_In.
        now apply in_map.
Qed.
End GroupingMore.

Lemma findTieGroups_led (h : store) (players : list ref) :
  Forall (led_group (fun a b => arePlayersTied (h a) (h b)))
         (findTieGroups h players) /\
  NoDup (map (fun o => name (h o)) (concat (findTieGroups h players))).
Proof.
  rewrite findTieGroups_groups_from.
  apply groups_from_invariant; [constructor|constructor|intros x []].
Qed.

(** X5: whatever the input, every group [findTieGroups] returns has a first
    player and at least one more, all players of the input and each tied
    with the first; and no name occurs in two groups or twice in a group. *)
Theorem findTieGroups_groups :
  forall (h : store) (players : list ref),
    NoDup (map (fun o => name (h o)) (concat (findTieGroups h players))) /\
    forall group, In group (findTieGroups h players) ->
      (2 <= length group)%nat /\
      (forall x, In x group -> In x players) /\
      exists leader members,
        group = leader :: members /\
        forall x, In x members -> arePlayersTied (h leader) (h x) = true.
Proof.
  intros h players. destruct (findTieGroups_led h players) as (Hled & Hnd).
  split; [exact Hnd|]. intros group Hg.
  rewrite Forall_forall in Hled.
  destruct (Hled group Hg) as (leader & members & -> & Hne & Ht).
  split; [destruct members; [congruence|simpl; lia]|]. split.
  - intros x Hx.
    assert (Hc : In x (concat (findTieGroups h players))).
    { apply in_concat. eauto. }
    rewrite findTieGroups_groups_from in Hc.
    apply groups_from_subset in Hc as [[]|Hc]. exact Hc.
  - eauto.
Qed.

(** X6: for players with distinct names, [findTieGroups] returns no group at all
    exactly when no two players are fully tied. *)
Theorem findTieGroups_nil_iff :
  forall (h : store) (players : list ref),
    NoDup (map (fun o => name (h o)) players) ->
    (findTieGroups h players = [] <->
     forall x y, In x players -> In y players -> x <> y ->
                 arePlayersTied (h x) (h y) = false).
Proof.
  intros h players Hnd. split.
  - intros E x y Hx Hy Hne.
    destruct (arePlayersTied (h x) (h y)) eqn:Et; [exfalso|reflexivity].
    assert (Hin : In x (concat (findTieGroups h players))).
    { apply findTieGroups_In; [assumption|]. split; [assumption|].
      exists y. auto. }
    rewrite E in Hin. exact Hin.
  - intros Hno.
    destruct (findTieGroups h players) as [|group groups] eqn:E;
      [reflexivity|exfalso].
    destruct (findTieGroups_led h players) as (Hled & _).
    rewrite E in Hled. inversion Hled as [|? ? Hg _]; subst.
    destruct Hg as (leader & members & -> & _ & _).
    assert (Hin : In leader (concat (findTieGroups h players))).
    { rewrite E. now left. }
    apply findTieGroups_In in Hin as (Hl & y & Hy & Hne & Ht);
      [|assumption].
    rewrite (Hno leader y Hl Hy ltac:(congruence)) in Ht. discriminate.
Qed.

(** * [getStats] *)

Lemma fold_max_spec l : forall x,
  let m := fold_left Z.max l x in
  (m = x \/ In m l) /\ x <= m /\ forall y, In y l -> y <= m.
Proof.
  induction l as [|a l IH]; intros x; cbn [fold_left].
  - cbv zeta. split; [now left|]. split; [lia|intros y []].
  - destruct (IH (Z.max x a)) as (Hin & Hle & Hall). cbv zeta.
    split; [|split].
    + destruct Hin as [Hin|Hin]; [|right; now right].
      rewrite Hin. destruct (Z.max_spec x a) as [[_ ->]|[_ ->]];
        [right; now left|now left].
    + lia.
    + intros y [<-|Hy]; [lia|auto].
Qed.

Lemma fold_min_spec l : forall x,
  let m := fold_left Z.min l x in
  (m = x \/ In m l) /\ m <= x /\ forall y, In y l -> m <= y.
Proof.
  induction l as [|a l IH]; intros x; cbn [fold_left].
  - cbv zeta. split; [now left|]. split; [lia|intros y []].
  - destruct (IH (Z.min x a)) as (Hin & Hle & Hall). cbv zeta.
    split; [|split].
    + destruct Hin as [Hin|Hin]; [|right; now right].
      rewrite Hin. destruct (Z.min_spec x a) as [[_ ->]|[_ ->]];
        [now left|right; now left].
    + lia.
    + intros y [<-|Hy]; [lia|auto].
Qed.

(** X13: [getStats] counts the players; on an empty list the extremes are the
    infinities and the mean is [NaN]; on a non-empty list the highest and the
    lowest score are total points of players and bound every player's total
    points; and the tied count never exceeds the number of players. *)
Theorem getStats_extremes :
  forall (players : list ref) (h : store),
    let stats := getStats players h in
    totalPlayers stats = Z.of_nat (length players) /\
    0 <= tiedCount stats <= totalPlayers stats /\
    (players = [] ->
     highestScore stats = NegInfinity /\ lowestScore stats = PosInfinity /\
     averageScore stats = NaN) /\
    (players <> [] ->
     exists hi lo,
       highestScore stats = Finite (inject_Z hi) /\
       lowestScore stats = Finite (inject_Z lo) /\
       (exists p, In p players /\ totalPoints (h p) = hi) /\
       (exists p, In p players /\ totalPoints (h p) = lo) /\
       forall p, In p players -> lo <= totalPoints (h p) <= hi).
Proof.
  intros players h stats. subst stats. unfold getStats. cbn [totalPlayers
    tiedCount highestScore lowestScore averageScore].
  split; [reflexivity|]. split.
  { split; [lia|]. apply inj_le.
    pose proof (filter_length_le (fun p => truthy (isTied (h p)))
                  (fun _ => true) players ltac:(auto)) as Hle.
    rewrite (filter_all (fun _ => true)) in Hle
      by (apply Forall_forall; auto).
    exact Hle. }
  split.
  - intros ->. repeat split.
  - intros Hne. destruct players as [|p0 players]; [congruence|].
    cbn [map math_max math_min].
    set (rest := map (fun p => totalPoints (h p)) players).
    destruct (fold_max_spec rest (totalPoints (h p0))) as (Hmi & Hmx & Hma).
    destruct (fold_min_spec rest (totalPoints (h p0))) as (Hni & Hnx & Hna).
    exists (fold_left Z.max rest (totalPoints (h p0))),
           (fold_left Z.min rest (totalPoints (h p0))).
    split; [reflexivity|]. split; [reflexivity|].
    assert (Hrest : forall v, In v rest ->
              exists p, In p (p0 :: players) /\ totalPoints (h p) = v).
    { intros v Hv. apply in_map_iff in Hv as (p & <- & Hp).
      exists p. split; [now right|reflexivity]. }
    split; [|split].
    + destruct Hmi as [->|Hin]; [exists p0; split; [now left|reflexivity]|].
      now apply Hrest.
    + destruct Hni as [->|Hin]; [exists p0; split; [now left|reflexivity]|].
      now apply Hrest.
    + intros p [<-|Hp]; [lia|].
      assert (In (totalPoints (h p)) rest)
        by (unfold rest; apply in_map_iff; exists p; auto).
      split; auto.
Qed.

Lemma fold_max_head l x : Forall (fun y => y <= x) l -> fold_left Z.max l x = x.
Proof.
  induction 1 as [|a l Ha _ IH]; cbn [fold_left]; [reflexivity|].
  now rewrite Z.max_l.
Qed.

Lemma last_nonempty {A} (l : list A) : forall z d d',
  last (z :: l) d = last (z :: l) d'.
Proof.
  induction l as [|a l IH]; intros z d d'; [reflexivity|].
  change (last (a :: l) d = last (a :: l) d'). apply IH.
Qed.

Lemma fold_min_last l : forall x,
  StronglySorted Z.ge (x :: l) -> fold_left Z.min l x = last l x.
Proof.
  induction l as [|a l IH]; intros x Hs; cbn [fold_left]; [reflexivity|].
  inversion Hs as [|? ? Hs' Hx]; subst. inversion Hx as [|? ? Hxa _]; subst.
  rewrite Z.min_r by lia. rewrite (IH a Hs').
  destruct l as [|z l]; [reflexivity|].
  change (last (a :: z :: l) x) with (last (z :: l) x).
  apply last_nonempty.
Qed.

Lemma map_last {A B} (f : A -> B) l d : last (map f l) (f d) = f (last l d).
Proof.
  induction l as [|a l IH]; [reflexivity|].
  destruct l as [|b l]; [reflexivity|exact IH].
Qed.

Section StatsAfterSort.
Variable localeCompare : string -> string -> Z.

Hypothesis localeCompare_antisym :
  forall s t, Z.sgn (localeCompare t s) = - Z.sgn (localeCompare s t).
Hypothesis localeCompare_trans :
  forall s t u,
    localeCompare s t <= 0 -> localeCompare t u <= 0 ->
    localeCompare s u <= 0.

Local Abbreviation sorted_of players h :=
  (js_sort (fun a b => comparePlayers localeCompare (h a) (h b)) players).

Lemma sorted_of_points (players : list ref) (h h' : store) :
  (forall o, same_data (h' o) (h o)) ->
  StronglySorted Z.ge
    (map (fun p => totalPoints (h' p)) (sorted_of players h)).
Proof.
  intros Hsd.
  pose proof (sorted_of_strongly localeCompare localeCompare_antisym
                localeCompare_trans players h) as Hs.
  induction Hs as [|x l Hl IH Hx]; cbn [map]; constructor; [exact IH|].
  apply Forall_forall. intros v Hv.
  apply in_map_iff in Hv as (y & <- & Hy).
  rewrite Forall_forall in Hx. specialize (Hx y Hy). cbv beta in Hx.
  apply comparePlayers_le in Hx. unfold ranked_before in Hx.
  destruct (Hsd x) as (_ & _ & _ & -> & _).
  destruct (Hsd y) as (_ & _ & _ & -> & _). lia.
Qed.

(** X14: on the result of [sortPlayers], the highest score of [getStats] is the
    total of the player ranked first and the lowest score is the total of
    the player ranked last. *)
Theorem getStats_after_sortPlayers :
  forall (players : list ref) (h : store) (first : ref),
    let out := sortPlayers localeCompare players h in
    let stats := getStats (fst out) (snd out) in
    hd_error (fst out) = Some first ->
    totalPlayers stats = Z.of_nat (length players) /\
    highestScore stats = Finite (inject_Z (totalPoints (h first))) /\
    lowestScore stats
    = Finite (inject_Z (totalPoints (h (last (fst out) first)))).
Proof.
  intros players h first out stats Hfirst. subst stats out.
  rewrite sortPlayers_fst in *.
  set (h' := snd (sortPlayers localeCompare players h)).
  assert (Hsd : forall o, same_data (h' o) (h o))
    by (intros o; apply sortPlayers_same_data).
  pose proof (sorted_of_points players h h' Hsd) as Hsorted.
  unfold getStats. cbn [totalPlayers highestScore lowestScore].
  split; [now rewrite (Permutation_length (js_sort_perm _ players))|].
  destruct (sorted_of players h) as [|x l] eqn:E; [discriminate|].
  injection Hfirst as ->.
  cbn [map math_max math_min] in *.
  assert (Hp : forall o, totalPoints (h' o) = totalPoints (h o))
    by (intros o; apply Hsd).
  split.
  - rewrite fold_max_head, Hp; [reflexivity|].
    inversion Hsorted as [|? ? _ Hx]; subst.
    eapply Forall_impl; [|exact Hx]. cbv beta. intros; lia.
  - rewrite (fold_min_last _ _ Hsorted).
    rewrite (map_last (fun p => totalPoints (h' p)) l first), Hp.
    destruct l; reflexivity.
Qed.
End StatsAfterSort.

Section StatsTies.
Variable localeCompare : string -> string -> Z.

Local Abbreviation sorted_of players h :=
  (js_sort (fun a b => comparePlayers localeCompare (h a) (h b)) players).

Lemma sortPlayers_flag_iff (players : list ref) (h : store) x :
  NoDup (map (fun o => name (h o)) players) ->
  (forall o, In o players -> isTied (h o) <> Some true) ->
  In x players ->
  (isTied (snd (sortPlayers localeCompare players h) x) = Some true <->
   exists y, In y players /\ y <> x /\ arePlayersTied (h x) (h y) = true).
Proof.
  intros Hnd Hfresh Hx.
  assert (Hnd' : NoDup (map (fun o => name (h o)) (sorted_of players h))).
  { eapply Permutation_NoDup; [|exact Hnd].
    apply Permutation_map. symmetry. apply js_sort_perm. }
  destruct (sortPlayers_isTied localeCompare players h x) as (Hin & Hout).
  pose proof (findTieGroups_In h (sorted_of players h) x Hnd') as Hg.
  split.
  - intros Hflag.
    destruct (in_dec Nat.eq_dec x
                (concat (findTieGroups h (sorted_of players h)))) as [H|H].
    + apply Hg in H as (_ & y & Hy & Hne & Ht).
      exists y. apply js_sort_In in Hy. auto.
    + rewrite (Hout H) in Hflag. now apply Hfresh in Hflag.
  - intros (y & Hy & Hne & Ht). apply Hin, Hg.
    split; [now apply js_sort_In|].
    exists y. split; [now apply js_sort_In|auto].
Qed.

(** X15: for players with distinct names and no flag set beforehand, the tied
    count [getStats] reports on the result of [sortPlayers] is the number of
    players whose tie class has two or more members; it is never 1. *)
Theorem getStats_tiedCount :
  forall (players : list ref) (h : store),
    NoDup (map (fun o => name (h o)) players) ->
    (forall o, In o players -> isTied (h o) <> Some true) ->
    let out := sortPlayers localeCompare players h in
    let stats := getStats (fst out) (snd out) in
    tiedCount stats
    = Z.of_nat (length (filter
                  (fun x => (2 <=? length (tie_class h players x))%nat)
                  players)) /\
    tiedCount stats <> 1.
Proof.
  intros players h Hnd Hfresh out stats. subst stats out.
  set (h' := snd (sortPlayers localeCompare players h)).
  set (flagged := fun p : ref => truthy (isTied (h' p))).
  assert (Hcount : tiedCount (getStats
                     (fst (sortPlayers localeCompare players h)) h')
                   = Z.of_nat (length (filter flagged players))).
  { unfold getStats. cbn [tiedCount]. f_equal. rewrite sortPlayers_fst.
    apply filter_length_perm, js_sort_perm. }
  assert (Hflag : forall x, In x players ->
            (flagged x = true <->
             exists y, In y players /\ y <> x /\
                       arePlayersTied (h x) (h y) = true)).
  { intros x Hx. rewrite <- (sortPlayers_flag_iff players h x Hnd Hfresh Hx).
    unfold flagged. fold h'.
    destruct (isTied (h' x)) as [[|]|]; simpl; split; congruence. }
  pose proof (NoDup_map_inv _ _ Hnd) as Hndp.
  rewrite Hcount. split.
  - f_equal. f_equal. apply filter_same, Forall_forall. intros x Hx.
    pose proof (tie_class_two h players x Hndp Hx) as Htwo.
    pose proof (Hflag x Hx) as Hf.
    destruct (flagged x) eqn:E1;
      destruct (Nat.leb_spec 2 (length (tie_class h players x)));
      try reflexivity; exfalso.
    + assert (2 <= length (tie_class h players x))%nat
        by (apply Htwo, Hf; reflexivity). lia.
    + assert (false = true) by (apply Hf, Htwo; assumption). discriminate.
  - intros Hone.
    destruct (filter flagged players) as [|x [|x' l]] eqn:E;
      simpl in Hone; try lia.
    assert (Hx : In x (filter flagged players)) by (rewrite E; now left).
    apply filter_In in Hx as [Hx Hfx].
    apply (Hflag x Hx) in Hfx as (y & Hy & Hne & Ht).
    assert (Hfy : flagged y = true).
    { apply (Hflag y Hy). exists x. split; [assumption|].
      split; [congruence|now apply arePlayersTied_sym]. }
    assert (Hyin : In y (filter flagged players))
      by (apply filter_In; auto).
    rewrite E in Hyin. destruct Hyin as [->|[]]. congruence.
Qed.
End StatsTies.

(** * From raw rows to players *)

Lemma prefix_app p s : String.prefix p (p ++ s)%string = true.
Proof.
  induction p as [|c p IH]; simpl; [now destruct s|].
  destruct (Ascii.ascii_dec c c); [exact IH|congruence].
Qed.

Lemma includes_prefix pattern value :
  String.prefix pattern value = true -> includes pattern value = true.
Proof. intros H. destruct value; cbn [includes]; now rewrite H. Qed.

Lemma includes_app pattern pre post :
  includes pattern (pre ++ pattern ++ post)%string = true.
Proof.
  induction pre as [|c pre IH].
  - change (includes pattern (pattern ++ post)%string = true).
    apply includes_prefix, prefix_app.
  - change (includes pattern (String c (pre ++ pattern ++ post)%string)
            = true).
    cbn [includes]. rewrite IH. now destruct (String.prefix _ _).
Qed.

Lemma remove_dollar_comma_idem s :
  remove_dollar_comma (remove_dollar_comma s) = remove_dollar_comma s.
Proof.
  induction s as [|c s IH]; simpl; [reflexivity|].
  destruct (is_dollar_or_comma c) eqn:E; simpl; [exact IH|].
  now rewrite E, IH.
Qed.

Lemma map_nth_seq {A} (l : list A) d :
  map (fun o => nth o l d) (seq 0 (length l)) = l.
Proof.
  induction l as [|a l IH]; [reflexivity|].
  cbn [length seq map nth]. f_equal.
  rewrite <- seq_shift, map_map. exact IH.
Qed.

Section Reader.
Variable toLowerCase : string -> string.
Variable roundedHundredths : string -> option Z.
Variable js_add : Z -> Z -> Z.

(** X16: a score cell that mentions [DSQ] or [D$Q] anywhere counts as 0,
    whatever else stands in the cell. *)
Theorem parseScore_disqualified :
  forall pre post : string,
    (parseScore roundedHundredths) (pre ++ "DSQ" ++ post)%string = 0 /\
    (parseScore roundedHundredths) (pre ++ "D$Q" ++ post)%string = 0.
Proof.
  intros pre post. split; unfold parseScore.
  - rewrite (includes_app "DSQ" pre post), orb_true_r. reflexivity.
  - rewrite (includes_app "D$Q" pre post), orb_true_r. reflexivity.
Qed.

Lemma parseSpending_cleaned :
  roundedHundredths "" = None -> roundedHundredths "-" = None ->
  forall s,
    (parseSpending roundedHundredths) s
    = match roundedHundredths (remove_dollar_comma s) with
      | None => 0
      | Some num => num
      end.
Proof.
  intros He Hd s. unfold parseSpending.
  destruct (String.eqb_spec s "") as [->|Hne1]; simpl; [now rewrite He|].
  destruct (String.eqb_spec s "-") as [->|Hne2]; simpl; [now rewrite Hd|].
  reflexivity.
Qed.

(** X17: when the platform reads neither the empty cell nor a lone dash as a
    number, dollar signs and commas never change what a spending cell is
    worth: two cells that agree once those characters are removed have the
    same value. *)
Theorem parseSpending_ignores_currency :
  roundedHundredths "" = None -> roundedHundredths "-" = None ->
  forall s t : string,
    remove_dollar_comma s = remove_dollar_comma t ->
    (parseSpending roundedHundredths) s = (parseSpending roundedHundredths) t.
Proof.
  intros He Hd s t E.
  now rewrite !(parseSpending_cleaned He Hd), E.
Qed.

(** What one row of the points table contributes. *)
Lemma merge_row_spec sps players raw :
  merge_row toLowerCase roundedHundredths js_add sps players raw
  = players ++
    match find (fun sp => String.eqb (toLowerCase (Raw.name sp))
                                     (toLowerCase (Raw.name raw))) sps with
    | None => []
    | Some sp =>
        let eventScores :=
          map (parseScore roundedHundredths) (Raw.scores raw) in
        let eventSpending :=
          map (parseSpending roundedHundredths) (Raw.spending sp) in
        [mkPlayer (Raw.name raw) eventScores eventSpending
                  (fold_left js_add eventScores 0)
                  (fold_left js_add eventSpending 0) None None]
    end.
Proof.
  unfold merge_row. destruct (find _ sps); [reflexivity|].
  now rewrite app_nil_r.
Qed.

Lemma mergeTables_acc pts sps : forall players,
  fold_left (merge_row toLowerCase roundedHundredths js_add sps) pts players
  = players ++ mergeTables toLowerCase roundedHundredths js_add pts sps.
Proof.
  unfold mergeTables.
  induction pts as [|raw pts IH]; intros players; cbn [fold_left].
  - now rewrite app_nil_r.
  - rewrite IH, (IH (merge_row _ _ _ sps [] raw)).
    rewrite !merge_row_spec. cbn [app]. now rewrite app_assoc.
Qed.

Lemma mergeTables_cons raw pts sps :
  mergeTables toLowerCase roundedHundredths js_add (raw :: pts)
              sps
  = merge_row toLowerCase roundedHundredths js_add sps [] raw
    ++ mergeTables toLowerCase roundedHundredths js_add pts sps.
Proof. unfold mergeTables at 1. cbn [fold_left]. apply mergeTables_acc. Qed.

(** X18: every player [mergeTables] builds comes from a row of the points
    table and the first row of the spending table with the same name in
    lower case; its events are the parsed cells of those rows, its totals
    are its events added up from the left with the platform's addition,
    starting from 0, and it carries neither a rank nor a tie flag. *)
Theorem mergeTables_players :
  forall (pts sps : list Raw.RawPlayerData) (p : Player),
    In p (mergeTables toLowerCase roundedHundredths js_add pts sps) ->
    totalPoints p = fold_left js_add (eventScores p) 0 /\
    totalSpending p = fold_left js_add (eventSpending p) 0 /\
    rank p = None /\ isTied p = None /\
    exists raw sp,
      In raw pts /\
      find (fun sp' => String.eqb (toLowerCase (Raw.name sp'))
                                  (toLowerCase (Raw.name raw))) sps
      = Some sp /\
      name p = Raw.name raw /\
      eventScores p = map (parseScore roundedHundredths) (Raw.scores raw) /\
      eventSpending p = map (parseSpending roundedHundredths) (Raw.spending sp).
Proof.
  intros pts sps p. induction pts as [|raw pts IH]; [intros []|].
  rewrite mergeTables_cons, merge_row_spec. cbn [app].
  intros Hin. apply in_app_iff in Hin as [Hin|Hin].
  - destruct (find _ sps) as [sp|] eqn:Ef; [|contradiction].
    destruct Hin as [<-|[]]. cbn [totalPoints totalSpending eventScores
      eventSpending rank isTied name].
    repeat (split; [reflexivity|]).
    exists raw, sp. repeat split; auto. now left.
  - destruct (IH Hin) as (H1 & H2 & H3 & H4 & raw' & sp & Hr & Hrest).
    repeat (split; [assumption|]).
    exists raw', sp. split; [now right|auto].
Qed.

(** X19: [mergeTables] keeps, in their order, exactly the rows of the points
    table for which the spending table has a row with the same name in lower
    case; the other rows are dropped. *)
Theorem mergeTables_names :
  forall pts sps : list Raw.RawPlayerData,
    map name (mergeTables toLowerCase roundedHundredths js_add pts sps)
    = map Raw.name
        (filter (fun raw =>
                   existsb (fun sp => String.eqb (toLowerCase (Raw.name sp))
                                                 (toLowerCase (Raw.name raw)))
                           sps)
                pts).
Proof.
  intros pts sps. induction pts as [|raw pts IH]; [reflexivity|].
  rewrite mergeTables_cons, merge_row_spec, map_app, IH. cbn [app filter].
  destruct (find _ sps) as [sp|] eqn:Ef.
  - apply find_some in Ef as [Hsp Heq].
    replace (existsb _ sps) with true; [reflexivity|].
    symmetry. apply existsb_exists. eauto.
  - replace (existsb _ sps) with false; [reflexivity|].
    symmetry. apply not_true_is_false. intros Hex.
    apply existsb_exists in Hex as (sp & Hsp & Heq).
    now rewrite (find_none _ _ Ef sp Hsp) in Heq.
Qed.
Lemma mergeTables_fresh pts sps p :
  In p (mergeTables toLowerCase roundedHundredths js_add pts sps) ->
  isTied p = None /\ totalPoints p = fold_left js_add (eventScores p) 0.
Proof.
  induction pts as [|raw pts IH]; [intros []|].
  rewrite mergeTables_cons, merge_row_spec. cbn [app].
  intros Hin. apply in_app_iff in Hin as [Hin|Hin]; [|auto].
  destruct (find _ sps); [|contradiction].
  destruct Hin as [<-|[]]. split; reflexivity.
Qed.

Variable localeCompare : string -> string -> Z.

(** X20: reading and ranking together: when the merged players have distinct
    names, [sortPlayers] run on them flags a player exactly when another
    merged player is fully tied with it, and every ranked record still has
    the total the reader added up from its event scores. *)
Theorem mergeTables_then_sortPlayers :
  forall (pts sps : list Raw.RawPlayerData),
    let ps := mergeTables toLowerCase roundedHundredths js_add pts sps in
    let out :=
      sortPlayers localeCompare (seq 0 (length ps)) (store_of ps) in
    NoDup (map name ps) ->
    forall x, (x < length ps)%nat ->
      (isTied (snd out x) = Some true <->
       exists y, (y < length ps)%nat /\ y <> x /\
                 arePlayersTied (store_of ps x) (store_of ps y) = true) /\
      totalPoints (snd out x)
      = fold_left js_add (eventScores (snd out x)) 0.
Proof.
  intros pts sps ps out Hnd x Hx. subst out.
  assert (Hin : forall o, (o < length ps)%nat -> In (store_of ps o) ps).
  { intros o Ho. unfold store_of. now apply nth_In. }
  assert (Hnd' : NoDup (map (fun o => name (store_of ps o))
                            (seq 0 (length ps)))).
  { rewrite <- (map_map (store_of ps) name).
    unfold store_of. now rewrite map_nth_seq. }
  assert (Hfresh : forall o, In o (seq 0 (length ps)) ->
                             isTied (store_of ps o) <> Some true).
  { intros o Ho. apply in_seq in Ho.
    destruct (mergeTables_fresh pts sps (store_of ps o)) as [-> _];
      [apply Hin; lia|discriminate]. }
  split.
  - rewrite (sortPlayers_flag_iff localeCompare _ _ x Hnd' Hfresh)
      by (apply in_seq; lia).
    split; intros (y & Hy & H); exists y; (split; [|exact H]).
    + apply in_seq in Hy. lia.
    + apply in_seq. lia.
  - destruct (sortPlayers_same_data localeCompare (seq 0 (length ps))
                (store_of ps) x) as (_ & -> & _ & -> & _).
    apply (mergeTables_fresh pts sps). now apply Hin.
Qed.
End Reader.

(** * The added properties on the small examples *)

Example demo_merged_result :
  demo_merged
  = [ mkPlayer "Al" [1000; 0; 500] [120000; 0; 0] 1500 120000 None None;
      mkPlayer "Cy" [0; 500; 1000] [120000; 0; 0] 1500 120000 None None ].
Proof. reflexivity. Qed.

Example demo_stats :
  getStats (fst (sortPlayers codepointCompare demo_players demo_store))
           (snd (sortPlayers codepointCompare demo_players demo_store))
  = mkStats 5 (Finite (inject_Z 70)) (Finite (inject_Z 65))
            (Finite (Qmake 330 5)) 2.
Proof. vm_compute. reflexivity. Qed.

Lemma demo_untied_names_NoDup :
  NoDup (map (fun o => name (demo_store o)) [2; 3; 4]%nat).
Proof.
  cbv [demo_store store_of map nth name newPlayer].
  repeat constructor; simpl; intuition discriminate.
Qed.

(** E and D are not tied, as [findTieGroups] finds no group among E, D
    and C. *)
Lemma findTieGroups_nil_iff_witness :
  findTieGroups demo_store [2; 3; 4]%nat = [] /\
  arePlayersTied (demo_store 2%nat) (demo_store 3%nat) = false.
Proof.
  split; [reflexivity|].
  apply (proj1 (findTieGroups_nil_iff demo_store [2; 3; 4]%nat
                  demo_untied_names_NoDup) eq_refl 2%nat 3%nat);
    simpl; auto.
Defined.

(** C, first, and B, last, are in order. *)
Lemma sortPlayers_sorted_pairs_witness :
  ranked_before codepointCompare
    (snd (sortPlayers codepointCompare demo_players demo_store) 4%nat)
    (snd (sortPlayers codepointCompare demo_players demo_store) 0%nat).
Proof.
  apply (sortPlayers_sorted_pairs codepointCompare codepointCompare_antisym
           codepointCompare_trans demo_players demo_store 0 4 4%nat 0%nat);
    [lia|reflexivity|reflexivity].
Defined.

Lemma sortPlayers_rank_bounds_witness :
  exists rx ry,
    rank (snd (sortPlayers codepointCompare demo_players demo_store) 3%nat)
    = Some rx /\
    rank (snd (sortPlayers codepointCompare demo_players demo_store) 0%nat)
    = Some ry /\
    1 <= rx /\ rx <= ry /\ ry <= Z.of_nat 4 + 1.
Proof.
  apply (sortPlayers_rank_bounds codepointCompare codepointCompare_antisym
           codepointCompare_trans demo_players demo_store 1 4 3%nat 0%nat);
    [lia|reflexivity|reflexivity].
Defined.

Lemma sortPlayers_rank_order_witness :
  exists rx ry,
    rank (snd (sortPlayers codepointCompare demo_players demo_store) 1%nat)
    = Some rx /\
    rank (snd (sortPlayers codepointCompare demo_players demo_store) 0%nat)
    = Some ry /\
    (rx = ry <->
     arePlayersTied (demo_store 1%nat) (demo_store 0%nat) = true) /\
    (rx < ry <-> outranks (demo_store 1%nat) (demo_store 0%nat) = true).
Proof.
  apply (sortPlayers_rank_order codepointCompare codepointCompare_antisym
           codepointCompare_trans demo_players demo_store 1%nat 0%nat);
    simpl; auto.
Defined.

Lemma sortPlayers_idempotent_witness :
  fst (sortPlayers codepointCompare
         (fst (sortPlayers codepointCompare demo_players demo_store))
         (snd (sortPlayers codepointCompare demo_players demo_store)))
  = fst (sortPlayers codepointCompare demo_players demo_store).
Proof.
  apply (sortPlayers_idempotent codepointCompare codepointCompare_antisym
           codepointCompare_trans demo_players demo_store).
Defined.

Lemma demo_players_apart :
  forall x y, In x demo_players -> In y demo_players -> x <> y ->
              comparePlayers codepointCompare (demo_store x) (demo_store y)
              <> 0.
Proof.
  intros x y Hx Hy Hne. simpl in Hx, Hy.
  repeat (destruct Hx as [<-|Hx]; [|]);
    try contradiction;
    repeat (destruct Hy as [<-|Hy]; [|]);
    try contradiction; try congruence; vm_compute; discriminate.
Qed.

Lemma sortPlayers_order_independent_witness :
  sortPlayers codepointCompare demo_players demo_store
  = sortPlayers codepointCompare (rev demo_players) demo_store.
Proof.
  apply (sortPlayers_order_independent codepointCompare
           codepointCompare_antisym codepointCompare_trans
           demo_players (rev demo_players) demo_store
           demo_players_apart).
  apply Permutation_rev.
Defined.

Lemma getStats_after_sortPlayers_witness :
  highestScore
    (getStats (fst (sortPlayers codepointCompare demo_players demo_store))
              (snd (sortPlayers codepointCompare demo_players demo_store)))
  = Finite (inject_Z (totalPoints (demo_store 4%nat))).
Proof.
  apply (getStats_after_sortPlayers codepointCompare codepointCompare_antisym
           codepointCompare_trans demo_players demo_store 4%nat).
  reflexivity.
Defined.

Lemma getStats_tiedCount_witness :
  tiedCount
    (getStats (fst (sortPlayers codepointCompare demo_players demo_store))
              (snd (sortPlayers codepointCompare demo_players demo_store)))
  <> 1.
Proof.
  apply (getStats_tiedCount codepointCompare demo_players demo_store
           demo_names_NoDup demo_fresh).
Defined.

Lemma mergeTables_players_witness :
  totalPoints (nth 0 demo_merged (newPlayer "" [] []))
  = fold_left Z.add (eventScores (nth 0 demo_merged (newPlayer "" [] []))) 0.
Proof.
  apply (mergeTables_players ascii_lower whole_hundredths Z.add
           demo_points demo_spending).
  apply nth_In. simpl. lia.
Defined.

(** "$1,200" and "1200" are worth the same. *)
Lemma parseSpending_ignores_currency_witness :
  parseSpending whole_hundredths "$1,200"
  = parseSpending whole_hundredths "1200".
Proof.
  apply (parseSpending_ignores_currency whole_hundredths eq_refl eq_refl).
  reflexivity.
Defined.

Lemma demo_merged_names_NoDup : NoDup (map name demo_merged).
Proof.
  rewrite demo_merged_result. simpl.
  repeat constructor; simpl; intuition discriminate.
Qed.

Lemma mergeTables_then_sortPlayers_witness :
  isTied (snd (sortPlayers codepointCompare (seq 0 (length demo_merged))
                           (store_of demo_merged)) 0%nat) = Some true <->
  exists y, (y < length demo_merged)%nat /\ y <> 0%nat /\
            arePlayersTied (store_of demo_merged 0%nat)
                           (store_of demo_merged y) = true.
Proof.
  apply (mergeTables_then_sortPlayers ascii_lower whole_hundredths Z.add
           codepointCompare demo_points demo_spending
           demo_merged_names_NoDup 0%nat).
  simpl. lia.
Defined.

(** A lone player handed in with its flag set comes back flagged. *)
Lemma sortPlayers_keeps_flags_witness :
  isTied (snd (sortPlayers codepointCompare [0%nat] stale_store) 0%nat)
  = Some true.
Proof.
  apply (proj2 (sortPlayers_keeps_flags codepointCompare [0%nat]
                  stale_store 0%nat)).
  reflexivity.
Defined.

Lemma getStats_extremes_witness :
  exists hi lo,
    highestScore (getStats demo_players demo_store) = Finite (inject_Z hi) /\
    lowestScore (getStats demo_players demo_store) = Finite (inject_Z lo) /\
    (exists p, In p demo_players /\ totalPoints (demo_store p) = hi) /\
    (exists p, In p demo_players /\ totalPoints (demo_store p) = lo) /\
    forall p, In p demo_players -> lo <= totalPoints (demo_store p) <= hi.
Proof.
  apply (proj2 (proj2 (proj2 (getStats_extremes demo_players demo_store)))).
  discriminate.
Defined.

(** The scores of C hold a zero and nothing negative. *)
Lemma profile_keeps_nonzero_scores_witness :
  occurrences 20 (profile [20; 20; 20; 10; 0]) = 3 /\
  occurrences 0 (profile [20; 20; 20; 10; 0]) = 0.
Proof.
  assert (Hpos : forall s, In s [20; 20; 20; 10; 0] -> 0 <= s).
  { intros s Hs. simpl in Hs. lia. }
  destruct (profile_keeps_nonzero_scores [20; 20; 20; 10; 0] Hpos)
    as (_ & Hocc & Hzero).
  split; [|exact Hzero].
  rewrite (Hocc 20) by lia. reflexivity.
Defined.
